(** * rulegen: the SSA rewrite-rule compiler

    A shallow embedding of [src/cmd/internal/ssa/rulegen/rulegen.go].

    The program reads a file of rewrite rules
    [sexpr [&& extra conditions] -> sexpr], groups them by opcode and writes
    the Go source of a function [func (v *Value) bool] that applies the first
    rule that matches.

    Conventions of the embedding.
    - A Go [string] is a sequence of bytes: [String.string], one [ascii] per
      byte.  Indexing [s[i]] and slicing [s[lo:hi]] are by byte, and fault
      (a Go run-time panic) when out of range.
    - Go [int] counters ([d], [argnum], [rulenum], [*alloc]) never leave the
      range of a 64-bit integer on inputs that fit in memory; they are [Z]
      where they can go negative ([d]) and [nat] otherwise.
    - [map[string]string] and [map[string][]string] are [gmap string _].
    - The writer [w] is the sequence of [fmt.Fprintf] calls made on it: one
      constructor of [line] per call site, [render] gives the bytes written.
    - A run-time panic or [log.Fatalf] aborts the run: [result]. *)

From Stdlib Require Import ZArith Ascii String DecimalString DecimalNat Lia.
From stdpp Require Import gmap strings list fin_maps sorting.

(** * The program *)

(** ** Outcomes of the generator *)

Inductive result (A : Type) : Type :=
| Ok (a : A)
| Panic (msg : string)     (* run-time panic, or an explicit [panic(...)] *)
| Fatal (msg : string)     (* [log.Fatalf] *)
| OutOfFuel.               (* artefact of the embedding; shown unreachable *)
Arguments Ok {A} a.
Arguments Panic {A} msg.
Arguments Fatal {A} msg.
Arguments OutOfFuel {A}.

#[global] Instance result_ret : MRet result := fun A a => Ok a.

#[global] Instance result_bind : MBind result := fun A B k r =>
  match r with
  | Ok a => k a
  | Panic msg => Panic msg
  | Fatal msg => Fatal msg
  | OutOfFuel => OutOfFuel
  end.

#[global] Instance result_fmap : FMap result := fun A B f r =>
  match r with
  | Ok a => Ok (f a)
  | Panic msg => Panic msg
  | Fatal msg => Fatal msg
  | OutOfFuel => OutOfFuel
  end.

(** ** Go strings *)

Module GoString.

Fixpoint stake (n : nat) (s : string) : string :=
  match n, s with
  | S n', String c s' => String c (stake n' s')
  | _, _ => ""
  end.

Fixpoint sdrop (n : nat) (s : string) : string :=
  match n, s with
  | S n', String _ s' => sdrop n' s'
  | _, _ => s
  end.

Fixpoint srev (s : string) : string :=
  match s with
  | "" => ""
  | String c s' => srev s' +:+ String c ""
  end.

(** [s[i]] *)
Definition index (s : string) (i : nat) : result ascii :=
  match String.get i s with
  | Some c => Ok c
  | None => Panic "runtime error: index out of range"
  end.

(** [s[lo:hi]] with [lo], [hi] of type [int] *)
Definition slice (s : string) (lo hi : Z) : result string :=
  if bool_decide (0 ≤ lo ∧ lo ≤ hi ∧ hi ≤ Z.of_nat (String.length s))%Z
  then Ok (stake (Z.to_nat (hi - lo)) (sdrop (Z.to_nat lo) s))
  else Panic "runtime error: slice bounds out of range".

(** [s[1:len(s)-1]], the body of a bracketed token *)
Definition inner (s : string) : result string :=
  slice s 1 (Z.of_nat (String.length s) - 1).

(** [s[lo:]] *)
Definition slice_from (s : string) (lo : Z) : result string :=
  slice s lo (Z.of_nat (String.length s)).

(** Does [s] start with [p]? *)
Fixpoint has_prefix (p s : string) : bool :=
  match p, s with
  | "", _ => true
  | String a p', String b s' => if Ascii.eqb a b then has_prefix p' s' else false
  | _, _ => false
  end.

(** [%d] of a non-negative [int] *)
Definition itoa (n : nat) : string := NilEmpty.string_of_uint (Nat.to_uint n).

(** *** [strings.TrimSpace]

    White space is what [unicode.IsSpace] accepts on the UTF-8 decoding of
    the string: the six ASCII characters, U+0085 and U+00A0, and the
    characters with the White_Space property (U+1680, U+2000..U+200A,
    U+2028, U+2029, U+202F, U+205F, U+3000).  Each has one valid encoding,
    so trimming is removing these byte sequences from both ends. *)

Definition byte (n : nat) : ascii := ascii_of_nat n.

Definition space1 (c : ascii) : bool :=
  let n := nat_of_ascii c in
  ((9 <=? n) && (n <=? 13)) || (n =? 32).

Definition space2 (c1 c2 : ascii) : bool :=
  (nat_of_ascii c1 =? 194) &&
  ((nat_of_ascii c2 =? 133) || (nat_of_ascii c2 =? 160)).

Definition space3 (c1 c2 c3 : ascii) : bool :=
  let n1 := nat_of_ascii c1 in
  let n2 := nat_of_ascii c2 in
  let n3 := nat_of_ascii c3 in
  ((n1 =? 225) && (n2 =? 154) && (n3 =? 128))
  || ((n1 =? 226) && (n2 =? 128) &&
      (((128 <=? n3) && (n3 <=? 138)) || (n3 =? 168) || (n3 =? 169) || (n3 =? 175)))
  || ((n1 =? 226) && (n2 =? 129) && (n3 =? 159))
  || ((n1 =? 227) && (n2 =? 128) && (n3 =? 128)).

(** Remove white-space characters from the front; [p2] and [p3] recognise
    the two- and three-byte encodings in the order the bytes are met. *)
Fixpoint trim_front (p2 : ascii → ascii → bool)
    (p3 : ascii → ascii → ascii → bool) (s : string) : string :=
  match s with
  | String c1 s1 =>
      if space1 c1 then trim_front p2 p3 s1
      else match s1 with
           | String c2 s2 =>
               if p2 c1 c2 then trim_front p2 p3 s2
               else match s2 with
                    | String c3 s3 =>
                        if p3 c1 c2 c3 then trim_front p2 p3 s3 else s
                    | "" => s
                    end
           | "" => s
           end
  | "" => ""
  end.

Definition TrimLeftSpace (s : string) : string := trim_front space2 space3 s.

Definition TrimRightSpace (s : string) : string :=
  srev (trim_front (fun c2 c1 => space2 c1 c2)
                  (fun c3 c2 c1 => space3 c1 c2 c3) (srev s)).

Definition TrimSpace (s : string) : string :=
  TrimRightSpace (TrimLeftSpace s).

(** *** [strings.Trim(s, cutset)] for a cutset of ASCII characters *)

Fixpoint mem (c : ascii) (cutset : string) : bool :=
  match cutset with
  | "" => false
  | String a cs => Ascii.eqb a c || mem c cs
  end.

Fixpoint trim_left (cutset s : string) : string :=
  match s with
  | String c s' => if mem c cutset then trim_left cutset s' else s
  | "" => ""
  end.

Definition Trim (s cutset : string) : string :=
  srev (trim_left cutset (srev (trim_left cutset s))).

(** *** [strings.Index(s, sep)] *)

Fixpoint index_from (sep s : string) (i : nat) : option nat :=
  if has_prefix sep s then Some i
  else match s with
       | String _ s' => index_from sep s' (S i)
       | "" => None
       end.

Definition Index (s sep : string) : option nat := index_from sep s 0.

(** *** [strings.Split(s, sep)] for a non-empty [sep]

    The pieces between the successive, non-overlapping occurrences of
    [sep], found from the left.  [skip] counts the bytes of an occurrence
    still to be passed over, [cur] is the piece being read (reversed). *)

Fixpoint split_go (sep s : string) (skip : nat) (cur : string) : list string :=
  match s with
  | "" => [srev cur]
  | String c s' =>
      match skip with
      | S k => split_go sep s' k cur
      | 0 =>
          if has_prefix sep s
          then srev cur :: split_go sep s' (String.length sep - 1) ""
          else split_go sep s' 0 (String c cur)
      end
  end.

Definition Split (s sep : string) : list string := split_go sep s 0 "".

(** *** [strings.Join] *)

Fixpoint Join (l : list string) (sep : string) : string :=
  match l with
  | [] => ""
  | [x] => x
  | x :: l' => x +:+ sep +:+ Join l' sep
  end.

End GoString.
Import GoString.

(** ** [split]: the bracket-aware tokenizer (rulegen.go, lines 296-328) *)

Definition is_open (c : ascii) : bool :=
  Ascii.eqb c "(" || Ascii.eqb c "{" || Ascii.eqb c "[" || Ascii.eqb c "<".

Definition is_close (c : ascii) : bool :=
  Ascii.eqb c ")" || Ascii.eqb c "}" || Ascii.eqb c "]" || Ascii.eqb c ">".

Definition is_sep (c : ascii) : bool :=
  Ascii.eqb c " " || Ascii.eqb c (byte 9).

(** Result of the inner [for i := 0; i < len(s); i++] loop: it either leaves
    through [continue outer] at index [i], or runs to the end of [s] with the
    final [d] and [nonsp]. *)
Inductive scan_result : Type :=
| Cut (i : nat)
| End (d : Z) (nonsp : bool).

(** [scan rest i d nonsp]: the inner loop from index [i] on, where [rest] is
    [s[i:]]. *)
Fixpoint scan (rest : string) (i : nat) (d : Z) (nonsp : bool) : scan_result :=
  match rest with
  | "" => End d nonsp
  | String c rest' =>
      if is_open c then scan rest' (S i) (d + 1)%Z nonsp
      else if is_close c then scan rest' (S i) (d - 1)%Z nonsp
      else if is_sep c then
        if (d =? 0)%Z && nonsp then Cut i
        else scan rest' (S i) d nonsp
      else scan rest' (S i) d true
  end.

(** The [outer] loop; [r] is the slice built so far. *)
Fixpoint split_loop (fuel : nat) (s : string) (r : list string)
    : result (list string) :=
  match fuel with
  | 0 => OutOfFuel
  | S fuel' =>
      if String.eqb s "" then Ok r
      else match scan s 0 0 false with
           | Cut i => split_loop fuel' (sdrop i s) (r ++ [TrimSpace (stake i s)])
           | End d nonsp =>
               if negb (d =? 0)%Z then Panic ("imbalanced expression: " +:+ s)
               else Ok (if nonsp then r ++ [TrimSpace s] else r)
           end
  end.

Definition split (s : string) : result (list string) :=
  split_loop (S (String.length s)) s [].

(** The shared depth counter over a whole string: any opening character
    counts +1, any closing character -1. *)
Fixpoint depth (s : string) : Z :=
  match s with
  | "" => 0
  | String c s' =>
      ((if is_open c then 1 else if is_close c then -1 else 0) + depth s')%Z
  end.

(** ** The generated code

    Every [fmt.Fprintf(w, ...)] of the generator writes one piece of Go
    source; [line] has one constructor per format string, carrying the
    arguments of the call, and [render] is the text that reaches [w]. *)

Inductive line : Type :=
(* genMatch0 *)
| IfNe (v x fail : string)            (* "if %s != %s %s" *)
| Bind (x v : string)                 (* "%s := %s\n" *)
| IfOpNe (v op fail : string)         (* "if %s.Op != Op%s %s" *)
| IfTypeNe (v t fail : string)        (* "if %s.Type != %s %s" *)
| BindType (t v : string)             (* "%s := %s.Type\n" *)
| IfAuxNe (v x fail : string)         (* "if %s.Aux != %s %s" *)
| BindAux (x v : string)              (* "%s := %s.Aux\n" *)
| IfArgNe (v : string) (argnum : nat) (code fail : string)
                                      (* "if %s.Args[%d] != %s %s" *)
(* genResult0 *)
| SetOp (op : string)                 (* "v.Op = Op%s\n" *)
| ClearAux                            (* "v.Aux = nil\n" *)
| ResetArgs                           (* "v.Args = v.argstorage[:0]\n" *)
| NewValue (v op : string)            (* "%s := v.Block.NewValue(Op%s, TypeInvalid, nil)\n" *)
| SetTypeTo (v t : string)            (* "%s.Type = %s\n" *)
| SetAuxTo (v x : string)             (* "%s.Aux = %s\n" *)
| AddArg (v x : string)               (* "%s.AddArg(%s)\n" *)
| SetType (v : string)                (* "%s.SetType()\n" *)
(* main *)
| Header (rulefile args rulefn : string)
| Switch                              (* "switch v.Op {\n" *)
| Case (op : string)                  (* "case Op%s:\n" *)
| MatchComment (s : string)           (* "// match: %s\n" *)
| CondComment (s : string)            (* "// cond: %s\n" *)
| ResultComment (s : string)          (* "// result: %s\n" *)
| BlockOpen                           (* "{\n" *)
| IfNotCond (cond fail : string)      (* "if !(%s) %s" *)
| ReturnTrue                          (* "return true\n" *)
| BlockClose                          (* "}\n" *)
| Label (rulenum : nat)               (* "end%d:;\n" *)
| SwitchClose                         (* "}\n" *)
| ReturnFalse                         (* "return false\n" *)
| FuncClose.                          (* "}\n" *)

Definition nl : string := String (byte 10) "".

Definition render (l : line) : string :=
  match l with
  | IfNe v x fail => "if " +:+ v +:+ " != " +:+ x +:+ " " +:+ fail
  | Bind x v => x +:+ " := " +:+ v +:+ nl
  | IfOpNe v op fail => "if " +:+ v +:+ ".Op != Op" +:+ op +:+ " " +:+ fail
  | IfTypeNe v t fail => "if " +:+ v +:+ ".Type != " +:+ t +:+ " " +:+ fail
  | BindType t v => t +:+ " := " +:+ v +:+ ".Type" +:+ nl
  | IfAuxNe v x fail => "if " +:+ v +:+ ".Aux != " +:+ x +:+ " " +:+ fail
  | BindAux x v => x +:+ " := " +:+ v +:+ ".Aux" +:+ nl
  | IfArgNe v argnum code fail =>
      "if " +:+ v +:+ ".Args[" +:+ itoa argnum +:+ "] != " +:+ code +:+ " " +:+ fail
  | SetOp op => "v.Op = Op" +:+ op +:+ nl
  | ClearAux => "v.Aux = nil" +:+ nl
  | ResetArgs => "v.Args = v.argstorage[:0]" +:+ nl
  | NewValue v op => v +:+ " := v.Block.NewValue(Op" +:+ op +:+ ", TypeInvalid, nil)" +:+ nl
  | SetTypeTo v t => v +:+ ".Type = " +:+ t +:+ nl
  | SetAuxTo v x => v +:+ ".Aux = " +:+ x +:+ nl
  | AddArg v x => v +:+ ".AddArg(" +:+ x +:+ ")" +:+ nl
  | SetType v => v +:+ ".SetType()" +:+ nl
  | Header rulefile args rulefn =>
      "// autogenerated from " +:+ rulefile +:+ ": do not edit!" +:+ nl +:+
      "// generated with: go run rulegen/rulegen.go " +:+ args +:+ nl +:+
      "package ssa" +:+ nl +:+
      "func " +:+ rulefn +:+ "(v *Value) bool {" +:+ nl
  | Switch => "switch v.Op {" +:+ nl
  | Case op => "case Op" +:+ op +:+ ":" +:+ nl
  | MatchComment s => "// match: " +:+ s +:+ nl
  | CondComment s => "// cond: " +:+ s +:+ nl
  | ResultComment s => "// result: " +:+ s +:+ nl
  | BlockOpen => "{" +:+ nl
  | IfNotCond cond fail => "if !(" +:+ cond +:+ ") " +:+ fail
  | ReturnTrue => "return true" +:+ nl
  | BlockClose => "}" +:+ nl
  | Label rulenum => "end" +:+ itoa rulenum +:+ ":;" +:+ nl
  | SwitchClose => "}" +:+ nl
  | ReturnFalse => "return false" +:+ nl
  | FuncClose => "}" +:+ nl
  end.


(** ** [genMatch0] (rulegen.go, lines 173-241) *)

(** [s[0]] and [s[1:]] on the token slice *)
Definition head_token (s : list string) : result string :=
  match s with
  | a :: _ => Ok a
  | [] => Panic "runtime error: index out of range"
  end.

Definition tail_tokens (s : list string) : result (list string) :=
  match s with
  | _ :: s' => Ok s'
  | [] => Panic "runtime error: slice bounds out of range"
  end.

(** The reference [fmt.Sprintf("%s.Args[%d]", v, argnum)] *)
Definition arg_ref (v : string) (argnum : nat) : string :=
  v +:+ ".Args[" +:+ itoa argnum +:+ "]".

Section genMatch.
(** The recursive call [genMatch0(w, a, v', fail, m, false)]; [fail] is
    passed on unchanged and the map [m] is shared, so the callee's updates
    are seen by the caller: the map is threaded through. *)
Variable rec : string → string → gmap string string →
               result (list line * gmap string string).
Variables v fail : string.

(** One turn of [for _, a := range s[1:]]: the code written, and the new
    values of [argnum] and [m]. *)
Definition genMatch_arg (a : string) (argnum : nat) (m : gmap string string)
    : result (list line * nat * gmap string string) :=
  c ← index a 0;
  if Ascii.eqb c "<" then
    (* type restriction *)
    t ← inner a;
    c' ← index t 0;
    if Ascii.eqb c' "{" then
      code ← inner t;
      Ok ([IfTypeNe v code fail], argnum, m)
    else
      match m !! t with
      | Some u => Ok ([IfTypeNe v u fail], argnum, m)
      | None => Ok ([BindType t v], argnum, <[t := v +:+ ".Type"]> m)
      end
  else if Ascii.eqb c "[" then
    (* aux restriction *)
    x ← inner a;
    c' ← index x 0;
    if Ascii.eqb c' "{" then
      code ← inner x;
      Ok ([IfAuxNe v code fail], argnum, m)
    else
      match m !! x with
      | Some y => Ok ([IfAuxNe v y fail], argnum, m)
      | None => Ok ([BindAux x v], argnum, <[x := v +:+ ".Aux"]> m)
      end
  else if Ascii.eqb c "{" then
    code ← inner a;
    Ok ([IfArgNe v argnum code fail], S argnum, m)
  else
    (* variable or sexpr *)
    '(ls, m') ← rec a (arg_ref v argnum) m;
    Ok (ls, S argnum, m').

Fixpoint genMatch_args (args : list string) (argnum : nat)
    (m : gmap string string)
    : result (list line * nat * gmap string string) :=
  match args with
  | [] => Ok ([], argnum, m)
  | a :: args' =>
      '(l1, argnum1, m1) ← genMatch_arg a argnum m;
      '(l2, argnum2, m2) ← genMatch_args args' argnum1 m1;
      Ok (l1 ++ l2, argnum2, m2)
  end.
End genMatch.

Fixpoint genMatch0 (fuel : nat) (match_ v fail : string)
    (m : gmap string string) (top : bool)
    : result (list line * gmap string string) :=
  match fuel with
  | 0 => OutOfFuel
  | S fuel' =>
      c ← index match_ 0;
      if negb (Ascii.eqb c "(") then
        match m !! match_ with
        | Some x =>
            (* variable already has a definition: pointer equality *)
            Ok ([IfNe v x fail], m)
        | None =>
            (* remember that this variable references the given value *)
            Ok ([Bind match_ v], <[match_ := v]> m)
        end
      else
        body ← inner match_;
        s ← split body;
        (* check op *)
        op ← (if top then Ok [] else s0 ← head_token s; Ok [IfOpNe v s0 fail]);
        (* check type/aux/args *)
        args ← tail_tokens s;
        '(ls, _, m') ←
          genMatch_args (fun a v' m => genMatch0 fuel' a v' fail m false)
                        v fail args 0 m;
        Ok (op ++ ls, m')
  end.

Definition genMatch (match_ fail : string)
    : result (list line * gmap string string) :=
  genMatch0 (S (String.length match_)) match_ "v" fail ∅ true.

(** ** [genResult0] (rulegen.go, lines 246-294) *)

Section genResult.
(** The recursive call [genResult0(w, a, alloc, false)]: the code written,
    the new value of [*alloc] and the reference returned. *)
Variable rec : string → nat → result (list line * nat * string).
Variable v : string.

(** One turn of [for _, a := range s[1:]], on the state
    ([needsType], [*alloc]). *)
Definition genResult_arg (a : string) (needsType : bool) (alloc : nat)
    : result (list line * bool * nat) :=
  c ← index a 0;
  if Ascii.eqb c "<" then
    (* type restriction *)
    t ← inner a;
    c' ← index t 0;
    t ← (if Ascii.eqb c' "{" then inner t else Ok t);
    Ok ([SetTypeTo v t], false, alloc)
  else if Ascii.eqb c "[" then
    (* aux restriction *)
    x ← inner a;
    c' ← index x 0;
    x ← (if Ascii.eqb c' "{" then inner x else Ok x);
    Ok ([SetAuxTo v x], needsType, alloc)
  else if Ascii.eqb c "{" then
    code ← inner a;
    Ok ([AddArg v code], needsType, alloc)
  else
    (* regular argument (sexpr or variable) *)
    '(ls, alloc', x) ← rec a alloc;
    Ok (ls ++ [AddArg v x], needsType, alloc').

Fixpoint genResult_args (args : list string) (needsType : bool) (alloc : nat)
    : result (list line * bool * nat) :=
  match args with
  | [] => Ok ([], needsType, alloc)
  | a :: args' =>
      '(l1, needsType1, alloc1) ← genResult_arg a needsType alloc;
      '(l2, needsType2, alloc2) ← genResult_args args' needsType1 alloc1;
      Ok (l1 ++ l2, needsType2, alloc2)
  end.
End genResult.

(** The value the node is built in: the matched value [v] itself at the top,
    a new value [v%d] below.  Gives [v], the code written, the initial
    [needsType] and the new [*alloc]. *)
Definition genResult_node (top : bool) (op : string) (alloc : nat)
    : string * list line * bool * nat :=
  if top then
    ("v", [SetOp op; ClearAux; ResetArgs], false, alloc)
  else
    let v := "v" +:+ itoa alloc in
    (v, [NewValue v op], true, S alloc).

Fixpoint genResult0 (fuel : nat) (result_ : string) (alloc : nat) (top : bool)
    : result (list line * nat * string) :=
  match fuel with
  | 0 => OutOfFuel
  | S fuel' =>
      c ← index result_ 0;
      if negb (Ascii.eqb c "(") then
        (* variable *)
        Ok ([], alloc, result_)
      else
        body ← inner result_;
        s ← split body;
        s0 ← head_token s;
        let '(v, pre, needsType, alloc) := genResult_node top s0 alloc in
        args ← tail_tokens s;
        '(ls, needsType, alloc) ←
          genResult_args (fun a alloc => genResult0 fuel' a alloc false)
                         v args needsType alloc;
        Ok (pre ++ ls ++ (if needsType : bool then [SetType v] else []), alloc, v)
  end.

Definition genResult (result_ : string) : result (list line) :=
  '(ls, _, _) ← genResult0 (S (String.length result_)) result_ 0 true;
  Ok ls.

(** ** [main] (rulegen.go, lines 47-167) *)

(** *** Reading the rule file (lines 64-79)

    [bufio.Scanner] delivers the lines of the file; [oprules] collects, for
    each opcode, its rules in the order they are read. *)

(** The rule on a line of the file, without comment and surrounding space;
    empty if the line has no rule. *)
Definition rule_of_line (line : string) : string :=
  let line :=
    match Index line "//" with
    | Some i => stake i line     (* remove comments *)
    | None => line
    end in
  TrimSpace line.

(** [strings.Split(line, " ")[0][1:]] *)
Definition rule_op (line : string) : result string :=
  first ← head_token (Split line " ");
  slice_from first 1.

Definition read_line (oprules : gmap string (list string)) (line : string)
    : result (gmap string (list string)) :=
  let line := rule_of_line line in
  if String.eqb line "" then Ok oprules
  else
    op ← rule_op line;
    Ok (<[op := default [] (oprules !! op) ++ [line]]> oprules).

Fixpoint read_lines (oprules : gmap string (list string)) (lines : list string)
    : result (gmap string (list string)) :=
  match lines with
  | [] => Ok oprules
  | line :: lines' =>
      oprules ← read_line oprules line;
      read_lines oprules lines'
  end.

(** *** Splitting a rule (lines 102-116) *)

Record rule_parts : Type := RuleParts {
  rule_match : string;
  rule_cond : string;
  rule_result : string
}.

Definition blanks : string := " " +:+ String (byte 9) "".
Definition blanks_nl : string := blanks +:+ nl.

Definition split_rule (rule : string) : result rule_parts :=
  (* split at -> *)
  match Split rule "->" with
  | [s0; s1] =>
      let lhs := Trim s0 blanks in
      let result_ := Trim s1 blanks_nl in
      (* split match into matching part and additional condition *)
      match Index lhs "&&" with
      | Some i =>
          Ok (RuleParts (Trim (stake i lhs) blanks)
                        (Trim (sdrop (i + 2) lhs) blanks)
                        result_)
      | None => Ok (RuleParts lhs "" result_)
      end
  | _ => Fatal ("no arrow in rule " +:+ rule)
  end.

(** *** Generating the code of the rules (lines 92-141) *)

(** [fmt.Sprintf("{\ngoto end%d\n}\n", rulenum)] *)
Definition goto_end (rulenum : nat) : string :=
  "{" +:+ nl +:+ "goto end" +:+ itoa rulenum +:+ nl +:+ "}" +:+ nl.

Definition gen_rule (rulenum : nat) (rule : string) : result (list line) :=
  p ← split_rule rule;
  let fail := goto_end rulenum in
  '(lmatch, _) ← genMatch (rule_match p) fail;
  lresult ← genResult (rule_result p);
  Ok ([MatchComment (rule_match p); CondComment (rule_cond p);
       ResultComment (rule_result p); BlockOpen]
      ++ lmatch
      ++ (if String.eqb (rule_cond p) "" then [] else [IfNotCond (rule_cond p) fail])
      ++ lresult
      ++ [ReturnTrue; BlockClose; Label rulenum]).

(** [for _, rule := range oprules[op]], with the running [rulenum] *)
Fixpoint gen_rules (rules : list string) (rulenum : nat)
    : result (list line * nat) :=
  match rules with
  | [] => Ok ([], rulenum)
  | rule :: rules' =>
      l1 ← gen_rule rulenum rule;
      '(l2, rulenum') ← gen_rules rules' (S rulenum);
      Ok (l1 ++ l2, rulenum')
  end.

(** [for _, op := range ops] *)
Fixpoint gen_ops (oprules : gmap string (list string)) (ops : list string)
    (rulenum : nat) : result (list line * nat) :=
  match ops with
  | [] => Ok ([], rulenum)
  | op :: ops' =>
      '(l1, rulenum1) ← gen_rules (default [] (oprules !! op)) rulenum;
      '(l2, rulenum2) ← gen_ops oprules ops' rulenum1;
      Ok (Case op :: l1 ++ l2, rulenum2)
  end.

(** The byte-wise lexicographic order of Go strings *)
Definition str_le (a b : string) : Prop := String.leb a b = true.

#[global] Instance str_le_dec a b : Decision (str_le a b).
Proof. unfold str_le. apply _. Defined.

(** [sort.Strings] on the keys of [oprules]; the keys come out of the map
    in no particular order. *)
Definition sorted_ops (oprules : gmap string (list string)) : list string :=
  merge_sort str_le (map fst (map_to_list oprules)).

(** The function body: the switch and the final [return false]. *)
Definition gen_switch (oprules : gmap string (list string))
    : result (list line) :=
  '(ls, _) ← gen_ops oprules (sorted_ops oprules) 0;
  Ok (Switch :: ls ++ [SwitchClose; ReturnFalse; FuncClose]).


(** ** Vocabulary of the properties *)

(** *** The tokens and the input *)

(** The string without its ASCII white space. *)
Fixpoint remove_spaces (s : string) : string :=
  match s with
  | "" => ""
  | String c s' => if space1 c then remove_spaces s' else String c (remove_spaces s')
  end.

(** A string of separators and delimiters only: nothing in it sets [nonsp]. *)
Fixpoint quiet (s : string) : bool :=
  match s with
  | "" => true
  | String c s' => (is_open c || is_close c || is_sep c) && quiet s'
  end.

(** The pieces of a string, put together again. *)
Definition concat_strings (l : list string) : string :=
  foldr String.append "" l.

(** *** The arrow of a rule *)

(** The number of places where [sep] occurs in [s]. *)
Fixpoint occurrences (sep s : string) : nat :=
  (if has_prefix sep s then 1 else 0) +
  match s with
  | String _ s' => occurrences sep s'
  | "" => 0
  end.

Definition arrow : string := "->".

(** *** How a call can end *)

(** A result that is a value or a panic. *)
Definition clean {A} (r : result A) : Prop :=
  match r with
  | Ok _ | Panic _ => True
  | Fatal _ | OutOfFuel => False
  end.

(** *** Names in a match *)

(** The three places where a name can stand in a match expression. *)
Inductive position : Type := OrdinaryPos | TypePos | AuxPos.

(** The argument token that has [name] at that place. *)
Definition occurrence (k : position) (name : string) : string :=
  match k with
  | OrdinaryPos => name
  | TypePos => "<" +:+ name +:+ ">"
  | AuxPos => "[" +:+ name +:+ "]"
  end.

(** What the map records when the name is bound there, on the node [v] with
    the argument counter at [argnum]. *)
Definition bound_ref (k : position) (v : string) (argnum : nat) : string :=
  match k with
  | OrdinaryPos => arg_ref v argnum
  | TypePos => v +:+ ".Type"
  | AuxPos => v +:+ ".Aux"
  end.

Definition bind_line (k : position) (name v : string) (argnum : nat) : line :=
  match k with
  | OrdinaryPos => Bind name (arg_ref v argnum)
  | TypePos => BindType name v
  | AuxPos => BindAux name v
  end.

Definition check_line (k : position) (v : string) (argnum : nat)
    (r fail : string) : line :=
  match k with
  | OrdinaryPos => IfNe (arg_ref v argnum) r fail
  | TypePos => IfTypeNe v r fail
  | AuxPos => IfAuxNe v r fail
  end.

(** Child slots taken by an argument at that place. *)
Definition slot (k : position) : nat :=
  match k with OrdinaryPos => 1 | TypePos | AuxPos => 0 end.

(** A name: not empty, and not starting with an opening delimiter. *)
Definition plain_name (name : string) : bool :=
  match name with
  | String c _ => negb (is_open c)
  | "" => false
  end.

(** *** The shape of the code of a match *)

(** [match_code fail m ls m']: the lines [ls] are checks that leave through
    [fail] and bindings of names that are not yet in the map, and [m'] is [m]
    with the names bound by [ls]. *)
Inductive match_code (fail : string)
  : gmap string string → list line → gmap string string → Prop :=
| mc_nil m : match_code fail m [] m
| mc_check m x r v :
    m !! x = Some r → match_code fail m [IfNe v r fail] m
| mc_bind m x v :
    m !! x = None → match_code fail m [Bind x v] (<[x := v]> m)
| mc_op m v op : match_code fail m [IfOpNe v op fail] m
| mc_type_ne m v t : match_code fail m [IfTypeNe v t fail] m
| mc_type_bind m t v :
    m !! t = None →
    match_code fail m [BindType t v] (<[t := v +:+ ".Type"]> m)
| mc_aux_ne m v x : match_code fail m [IfAuxNe v x fail] m
| mc_aux_bind m x v :
    m !! x = None →
    match_code fail m [BindAux x v] (<[x := v +:+ ".Aux"]> m)
| mc_pin m v argnum code : match_code fail m [IfArgNe v argnum code fail] m
| mc_app m l1 m1 l2 m2 :
    match_code fail m l1 m1 → match_code fail m1 l2 m2 →
    match_code fail m (l1 ++ l2) m2.

(** The name a line binds and the reference the map records for it. *)
Definition binding (l : line) : option (string * string) :=
  match l with
  | Bind x v => Some (x, v)
  | BindType t v => Some (t, v +:+ ".Type")
  | BindAux x v => Some (x, v +:+ ".Aux")
  | _ => None
  end.

Definition bindings (ls : list line) : list (string * string) :=
  omap binding ls.

(** *** The arguments of an op-node *)

(** The four kinds of argument, told apart by the first byte. *)
Inductive arg_kind : Type := TypeArg | AuxArg | PinArg | SubArg.

Definition kind (a : string) : arg_kind :=
  match a with
  | String c _ =>
      if Ascii.eqb c "<" then TypeArg
      else if Ascii.eqb c "[" then AuxArg
      else if Ascii.eqb c "{" then PinArg
      else SubArg
  | "" => SubArg
  end.

(** Child slots an argument stands for: none for a type or aux constraint,
    one for a literal pin, a variable or a sub-pattern. *)
Definition slots (a : string) : nat :=
  match kind a with
  | TypeArg | AuxArg => 0
  | PinArg | SubArg => 1
  end.

Definition count_slots (args : list string) : nat :=
  foldr (fun a n => slots a + n) 0 args.

(** *** The code of a result *)

(** The name [v%d] of the value allocated when [*alloc] is [k]. *)
Definition value_name (k : nat) : string := "v" +:+ itoa k.

(** The value a line of result code works on. *)
Definition target (l : line) : option string :=
  match l with
  | NewValue v _ | SetTypeTo v _ | SetAuxTo v _ | AddArg v _ | SetType v => Some v
  | SetOp _ | ClearAux | ResetArgs => Some "v"
  | _ => None
  end.

(** The line works on a value allocated with [*alloc] in [lo, hi). *)
Definition fresh_in (lo hi : nat) (l : line) : Prop :=
  ∃ k, lo ≤ k < hi ∧ target l = Some (value_name k).

(** The lines the argument loop writes for the node [v] itself. *)
Definition own (v : string) (l : line) : Prop :=
  (∃ t, l = SetTypeTo v t) ∨ (∃ x, l = SetAuxTo v x) ∨ (∃ x, l = AddArg v x).

(** The references appended to [v], in the order of the code. *)
Definition appended (v : string) (ls : list line) : list string :=
  omap (fun l => match l with
                 | AddArg v' x => if String.eqb v' v then Some x else None
                 | _ => None
                 end) ls.

Definition is_sexpr (a : string) : bool :=
  match a with String c _ => Ascii.eqb c "(" | "" => false end.

Definition is_type_arg (a : string) : bool :=
  match kind a with TypeArg => true | _ => false end.

Definition positional (a : string) : bool :=
  match kind a with PinArg | SubArg => true | _ => false end.

(** The reference appended for a positional argument: the code of a literal
    pin, the name of a variable, the new value of a nested op-node. *)
Definition child_of (a x : string) : Prop :=
  match kind a with
  | PinArg => inner a = Ok x
  | SubArg => if is_sexpr a then ∃ k, x = value_name k else x = a
  | _ => False
  end.

(** What a recursive call does: it allocates the names from [alloc] up to
    the new [*alloc], works on those only, and returns the variable itself or
    the first of these names. *)
Definition result_call (rec : string → nat → result (list line * nat * string))
    (a : string) : Prop :=
  ∀ alloc l alloc' x, rec a alloc = Ok (l, alloc', x) →
    alloc ≤ alloc' ∧ Forall (fresh_in alloc alloc') l ∧
    (if is_sexpr a then x = value_name alloc else x = a).

(** ** The control flow of the generated function

    The generated text is a [switch v.Op] whose clauses are sequences of
    blocks [{ ...; return true }], each followed by its label [end%d], and a
    final [return false].  Its statements are the checks, bindings and
    assignments written by [genMatch0] and [genResult0] and the condition of
    the rule; what such a statement does to the state of the running program
    is left open here ([sem]), but where control goes is fixed by Go: a check
    that fails runs its [fail] block, [goto end%d]; a clause that runs to its
    end leaves the switch; a switch without a matching clause is skipped. *)

(** The effect of one statement. *)
Inductive step (St : Type) : Type :=
| Pass (σ : St)       (* goes on with the next statement *)
| Fail               (* a check that fails: its [fail] block is run *)
| Crash              (* run-time panic *)
| Opaque.            (* outside of what the model gives a meaning to *)
Arguments Pass {St} σ.
Arguments Fail {St}.
Arguments Crash {St}.
Arguments Opaque {St}.

(** The outcome of a call of the generated function. *)
Inductive outcome (St : Type) : Type :=
| Returns (b : bool) (σ : St)
| Faults
| Unknown
| FallsOff (σ : St).  (* end of the text without a return *)
Arguments Returns {St} b σ.
Arguments Faults {St}.
Arguments Unknown {St}.
Arguments FallsOff {St} σ.

(** The [fail] block of a check. *)
Definition fail_of (l : line) : option string :=
  match l with
  | IfNe _ _ fail | IfOpNe _ _ fail | IfTypeNe _ _ fail | IfAuxNe _ _ fail
  | IfArgNe _ _ _ fail | IfNotCond _ fail => Some fail
  | _ => None
  end.

(** The statements, as opposed to the lines that only shape the control
    flow or are comments. *)
Definition is_stmt (l : line) : bool :=
  match l with
  | IfNe _ _ _ | Bind _ _ | IfOpNe _ _ _ | IfTypeNe _ _ _ | BindType _ _
  | IfAuxNe _ _ _ | BindAux _ _ | IfArgNe _ _ _ _
  | SetOp _ | ClearAux | ResetArgs | NewValue _ _ | SetTypeTo _ _
  | SetAuxTo _ _ | AddArg _ _ | SetType _ | IfNotCond _ _ => true
  | _ => false
  end.

(** Where the program is: running statements, on its way to the label of a
    [goto], looking for the clause of the switch, or leaving the switch. *)
Inductive mode : Type :=
| Running
| Jumping (fail : string)
| Selecting
| Leaving.

Section exec.
Context {St : Type}.
Variable sem : line → St → step St.
(** The opcode of the value: [v.Op] is [Op<tag>]. *)
Variable tag : St → string.

Fixpoint exec (md : mode) (prog : list line) (σ : St) : outcome St :=
  match prog with
  | [] => FallsOff σ
  | l :: prog' =>
      match md with
      | Running =>
          match l with
          | Switch => exec Selecting prog' σ
          | Case _ => exec Leaving prog' σ
          | ReturnTrue => Returns true σ
          | ReturnFalse => Returns false σ
          | Header _ _ _ | MatchComment _ | CondComment _ | ResultComment _
          | BlockOpen | BlockClose | Label _ | SwitchClose | FuncClose =>
              exec Running prog' σ
          | _ =>
              match sem l σ with
              | Pass σ' => exec Running prog' σ'
              | Fail =>
                  match fail_of l with
                  | Some fail => exec (Jumping fail) prog' σ
                  | None => Unknown
                  end
              | Crash => Faults
              | Opaque => Unknown
              end
          end
      | Jumping fail =>
          match l with
          | Label rulenum =>
              if String.eqb (goto_end rulenum) fail then exec Running prog' σ
              else exec (Jumping fail) prog' σ
          | _ => exec (Jumping fail) prog' σ
          end
      | Selecting =>
          match l with
          | Case op =>
              if String.eqb op (tag σ) then exec Running prog' σ
              else exec Selecting prog' σ
          | SwitchClose => exec Running prog' σ
          | _ => exec Selecting prog' σ
          end
      | Leaving =>
          match l with
          | SwitchClose => exec Running prog' σ
          | _ => exec Leaving prog' σ
          end
      end
  end.

(** *** First match wins, as a program of its own *)

(** The outcome of the statements of one rule. *)
Inductive code_outcome : Type :=
| Completed (σ : St)
| FellThrough (σ : St)
| Crashed
| Stuck.

Fixpoint run_code (code : list line) (σ : St) : code_outcome :=
  match code with
  | [] => Completed σ
  | l :: code' =>
      match sem l σ with
      | Pass σ' => run_code code' σ'
      | Fail => match fail_of l with
                | Some _ => FellThrough σ
                | None => Stuck
                end
      | Crash => Crashed
      | Opaque => Stuck
      end
  end.
End exec.

(** The statements of a rule: its match, its condition, its result. *)
Definition rule_code (rulenum : nat) (rule : string) : result (list line) :=
  p ← split_rule rule;
  let fail := goto_end rulenum in
  '(lmatch, _) ← genMatch (rule_match p) fail;
  lresult ← genResult (rule_result p);
  Ok (lmatch
      ++ (if String.eqb (rule_cond p) "" then [] else [IfNotCond (rule_cond p) fail])
      ++ lresult).

Section dispatch.
Context {St : Type}.
Variable sem : line → St → step St.

(** Try the rules of a group in order; the first whose statements run to
    the end decides. *)
Fixpoint try_rules (rules : list string) (rulenum : nat) (σ : St) : outcome St :=
  match rules with
  | [] => Returns false σ
  | rule :: rules' =>
      match rule_code rulenum rule with
      | Ok code =>
          match run_code sem code σ with
          | Completed σ' => Returns true σ'
          | FellThrough σ' => try_rules rules' (S rulenum) σ'
          | Crashed => Faults
          | Stuck => Unknown
          end
      | _ => Unknown
      end
  end.
End dispatch.

(** The number of the first rule of the group [op], when the groups [ops]
    are numbered from [rulenum] on. *)
Fixpoint first_rulenum (oprules : gmap string (list string))
    (ops : list string) (op : string) (rulenum : nat) : nat :=
  match ops with
  | [] => rulenum
  | op' :: ops' =>
      if String.eqb op' op then rulenum
      else first_rulenum oprules ops' op
             (rulenum + length (default [] (oprules !! op')))
  end.

(** The opcodes of the clauses of the switch, in the order of the text. *)
Definition case_tags (ls : list line) : list string :=
  omap (fun l => match l with Case op => Some op | _ => None end) ls.

(** *** The lines of a rule *)

(** A statement whose [fail] block, if it has one, is [fail]. *)
Definition code_line (fail : string) (l : line) : Prop :=
  is_stmt l = true ∧ (fail_of l = None ∨ fail_of l = Some fail).

(** Lines that belong to one clause of the switch. *)
Definition inside (l : line) : Prop :=
  match l with
  | Switch | Case _ | SwitchClose => False
  | _ => True
  end.

(** The end of the generated function. *)
Definition footer : list line := [SwitchClose; ReturnFalse; FuncClose].

(** The rules of the opcode [op] in the file, in the order of the file. *)
Definition has_op (op : string) (rule : string) : bool :=
  negb (String.eqb rule "") &&
  match rule_op rule with
  | Ok op' => String.eqb op' op
  | _ => false
  end.

Definition rules_of (op : string) (lines : list string) : list string :=
  List.filter (has_op op) (rule_of_line <$> lines).

(** ** A meaning for the statements

    The values the generated function works on: a [*Value] is a pointer
    into a heap of values with an opcode, a type, an aux and a list of
    arguments; two pointers are equal when they are the same pointer.  The
    expressions the generator itself builds are given a meaning: a variable,
    followed by any number of [.Args[i]], [.Type] and [.Aux].  Everything
    else (the code between braces, the conditions) has none here. *)

Inductive val : Type :=
| Ptr (p : nat)        (* a [*Value] *)
| Data (d : string)    (* a type or an aux *)
| Nil.

#[global] Instance val_eq_dec : EqDecision val.
Proof. solve_decision. Defined.

Record Value : Type := MkValue {
  Op : string;
  Type_ : val;
  Aux : val;
  Args : list nat
}.

Record state : Type := MkState {
  heap : gmap nat Value;
  vars : gmap string val
}.

(** The value of an expression: a value, a run-time panic, or no meaning in
    this model. *)
Inductive ev : Type :=
| Val (x : val)
| Fault
| NoMeaning.

(** Follow the pointer [x] and read the value there. *)
Definition deref (σ : state) (x : ev) (f : Value → ev) : ev :=
  match x with
  | Val (Ptr p) =>
      match heap σ !! p with
      | Some V => f V
      | None => Fault
      end
  | Val Nil => Fault               (* nil pointer dereference *)
  | Val (Data _) => NoMeaning
  | Fault => Fault
  | NoMeaning => NoMeaning
  end.

(** [x.Args[i]]: out of range is a run-time panic. *)
Definition arg_at (i : nat) (V : Value) : ev :=
  match Args V !! i with
  | Some q => Val (Ptr q)
  | None => Fault                  (* index out of range *)
  end.

Definition is_digit (c : ascii) : bool :=
  let n := nat_of_ascii c in (48 <=? n) && (n <=? 57).

(** The digits at the front of a string, and what follows them. *)
Fixpoint span_digits (s : string) : string * string :=
  match s with
  | String c s' =>
      if is_digit c
      then let '(d, rest) := span_digits s' in (String c d, rest)
      else ("", s)
  | "" => ("", "")
  end.

(** The expression is read from its end; [r] is the expression reversed. *)
Fixpoint eval_rev (fuel : nat) (σ : state) (r : string) : ev :=
  match fuel with
  | 0 => NoMeaning
  | S fuel' =>
      if has_prefix "epyT." r then
        deref σ (eval_rev fuel' σ (sdrop 5 r)) (fun V => Val (Type_ V))
      else if has_prefix "xuA." r then
        deref σ (eval_rev fuel' σ (sdrop 4 r)) (fun V => Val (Aux V))
      else if has_prefix "]" r then
        let '(digits, rest) := span_digits (sdrop 1 r) in
        if has_prefix "[sgrA." rest then
          match NilEmpty.uint_of_string (srev digits) with
          | Some i =>
              deref σ (eval_rev fuel' σ (sdrop 6 rest)) (arg_at (Nat.of_uint i))
          | None => NoMeaning
          end
        else NoMeaning
      else
        match vars σ !! srev r with
        | Some x => Val x
        | None => NoMeaning
        end
  end.

Definition eval (σ : state) (e : string) : ev :=
  eval_rev (S (String.length e)) σ (srev e).

Section go_sem.
(** The conditions of the rules and the derivation of types are code from
    elsewhere. *)
Variable cond_holds : string → state → option bool.
Variable infer : Value → val.

Definition compare_ne (a b : ev) (σ : state) : step state :=
  match a, b with
  | Fault, _ => Crash
  | Val _, Fault => Crash
  | Val x, Val y => if decide (x = y) then Pass σ else Fail
  | _, _ => Opaque
  end.

Definition assign (x : string) (a : ev) (σ : state) : step state :=
  match a with
  | Val y => Pass (MkState (heap σ) (<[x := y]> (vars σ)))
  | Fault => Crash
  | NoMeaning => Opaque
  end.

Definition update (v : string) (f : Value → Value) (σ : state) : step state :=
  match eval σ v with
  | Val (Ptr p) =>
      match heap σ !! p with
      | Some V => Pass (MkState (<[p := f V]> (heap σ)) (vars σ))
      | None => Crash
      end
  | Val Nil | Fault => Crash
  | _ => Opaque
  end.

Definition go_sem (l : line) (σ : state) : step state :=
  match l with
  | IfNe v x _ => compare_ne (eval σ v) (eval σ x) σ
  | Bind x v => assign x (eval σ v) σ
  | IfOpNe v op _ =>
      match deref σ (eval σ v) (fun V => Val (Data (Op V))) with
      | Val x => if decide (x = Data op) then Pass σ else Fail
      | Fault => Crash
      | NoMeaning => Opaque
      end
  | IfTypeNe v t _ => compare_ne (eval σ (v +:+ ".Type")) (eval σ t) σ
  | BindType t v => assign t (eval σ (v +:+ ".Type")) σ
  | IfAuxNe v x _ => compare_ne (eval σ (v +:+ ".Aux")) (eval σ x) σ
  | BindAux x v => assign x (eval σ (v +:+ ".Aux")) σ
  | IfArgNe v argnum code _ =>
      compare_ne (eval σ (arg_ref v argnum)) (eval σ code) σ
  | SetOp op => update "v" (fun V => MkValue op (Type_ V) (Aux V) (Args V)) σ
  | ClearAux => update "v" (fun V => MkValue (Op V) (Type_ V) Nil (Args V)) σ
  | ResetArgs => update "v" (fun V => MkValue (Op V) (Type_ V) (Aux V) []) σ
  | NewValue x op =>
      let p := fresh (dom (heap σ)) in
      Pass (MkState (<[p := MkValue op (Data "TypeInvalid") Nil []]> (heap σ))
                    (<[x := Ptr p]> (vars σ)))
  | SetTypeTo v t =>
      match eval σ t with
      | Val y => update v (fun V => MkValue (Op V) y (Aux V) (Args V)) σ
      | Fault => Crash
      | NoMeaning => Opaque
      end
  | SetAuxTo v x =>
      match eval σ x with
      | Val y => update v (fun V => MkValue (Op V) (Type_ V) y (Args V)) σ
      | Fault => Crash
      | NoMeaning => Opaque
      end
  | AddArg v x =>
      match eval σ x with
      | Val (Ptr q) =>
          update v (fun V => MkValue (Op V) (Type_ V) (Aux V) (Args V ++ [q])) σ
      | Fault => Crash
      | _ => Opaque
      end
  | SetType v =>
      update v (fun V => MkValue (Op V) (infer V) (Aux V) (Args V)) σ
  | IfNotCond cond _ =>
      match cond_holds cond σ with
      | Some true => Pass σ
      | Some false => Fail
      | None => Opaque
      end
  | _ => Pass σ
  end.
End go_sem.

(** The opcode of the value [v]. *)
Definition go_tag (σ : state) : string :=
  match deref σ (eval σ "v") (fun V => Val (Data (Op V))) with
  | Val (Data op) => op
  | _ => ""
  end.

(** The state at the call of the generated function on the value at [p]. *)
Definition call_state (h : gmap nat Value) (p : nat) : state :=
  MkState h {["v" := Ptr p]}.

Definition no_cond : string → state → option bool := fun _ _ => None.
Definition no_infer : Value → val := fun _ => Data "inferred".

Definition two_consts : gmap nat Value :=
  <[0 := MkValue "Add" (Data "int") Nil [1; 2]]>
  (<[1 := MkValue "Const" (Data "int") (Data "3") []]>
  (<[2 := MkValue "Const" (Data "int") (Data "3") []]> ∅)).

Definition sample_rules : list string :=
  ["// sample rules"; "(Sub x y) -> (Add x (Neg y))";
   "(Add x x) -> (Mul x (Const [2]))"; ""; "(Add x y) -> (Sub y x) // swap"].

Definition all_digits (s : string) : bool :=
  forallb is_digit (list_ascii_of_string s).

(** ** Sample runs *)

(** An [Add] whose two arguments are the same value. *)
Definition same_const : gmap nat Value :=
  <[0 := MkValue "Add" (Data "int") Nil [1; 1]]>
  (<[1 := MkValue "Const" (Data "int") (Data "3") []]> ∅).

Definition match_outcome (match_ : string) (h : gmap nat Value)
    : result (@code_outcome state) :=
  '(ls, _) ← genMatch match_ (goto_end 0);
  Ok (run_code (go_sem no_cond no_infer) ls (call_state h 0)).

(** The value [v] after a call of the function generated from [rules]. *)
Definition rewritten (rules : list string) (h : gmap nat Value)
    : result (option (bool * option Value * nat)) :=
  oprules ← read_lines ∅ rules;
  ls ← gen_switch oprules;
  Ok (match exec (go_sem no_cond no_infer) go_tag Running ls (call_state h 0) with
      | Returns b σ => Some (b, heap σ !! 0, size (heap σ))
      | _ => None
      end).

(** ** Vocabulary of the further properties *)

(** The groups of a rule file: for each opcode its rules, none if it has
    no rule. *)
Definition group_of (op : string) (lines : list string) : option (list string) :=
  match rules_of op lines with
  | [] => None
  | rules => Some rules
  end.

(** What one byte adds to the depth counter. *)
Definition weight (c : ascii) : Z :=
  if is_open c then 1 else if is_close c then -1 else 0.

(** The names of the values allocated by a piece of result code, in the
    order of the text. *)
Definition new_values (ls : list line) : list string :=
  omap (fun l => match l with NewValue v _ => Some v | _ => None end) ls.

(** The labels of a text, in the order of the text. *)
Definition labels (ls : list line) : list nat :=
  omap (fun l => match l with Label n => Some n | _ => None end) ls.

(** The number of rules in the groups [ops]. *)
Definition rule_count (oprules : gmap string (list string))
    (ops : list string) : nat :=
  sum_list ((fun op => length (default [] (oprules !! op))) <$> ops).

(** Every [fail] block of the text is the [goto] to the first label that
    follows it. *)
Definition jumps_to_next_label (ls : list line) : Prop :=
  ∀ i l fail, ls !! i = Some l → fail_of l = Some fail →
    ∃ k, head (labels (drop (S i) ls)) = Some k ∧ fail = goto_end k.



(** A check or binding: a statement that works on no value. *)
Definition reads_only (fail : string) (l : line) : Prop :=
  is_stmt l = true ∧ target l = None ∧
  (fail_of l = None ∨ fail_of l = Some fail).

(** An assignment or allocation: a statement that works on a value and has
    no [fail] block. *)
Definition writes (l : line) : Prop :=
  is_Some (target l) ∧ fail_of l = None.

(** * Properties *)

(** ** Facts about Go strings *)

Section string_facts.
Implicit Types s t : string.

Lemma append_cons c s t : String c s +:+ t = String c (s +:+ t).
Proof. reflexivity. Qed.

Lemma append_nil_l s : "" +:+ s = s.
Proof. reflexivity. Qed.

Lemma append_nil_r s : s +:+ "" = s.
Proof. induction s as [|c s IH]; [done|]. by rewrite append_cons, IH. Qed.

Lemma append_assoc s t u : (s +:+ t) +:+ u = s +:+ (t +:+ u).
Proof. induction s as [|c s IH]; [done|]. by rewrite !append_cons, IH. Qed.

Lemma length_append s t :
  String.length (s +:+ t) = String.length s + String.length t.
Proof. induction s as [|c s IH]; [done|]. rewrite append_cons. simpl. by rewrite IH. Qed.

Lemma length_stake n s : String.length (stake n s) = n `min` String.length s.
Proof.
  revert s; induction n as [|n IH]; intros [|c s]; simpl; auto.
Qed.

Lemma length_sdrop n s : String.length (sdrop n s) = String.length s - n.
Proof.
  revert s; induction n as [|n IH]; intros [|c s]; simpl; auto.
Qed.

Lemma stake_sdrop n s : stake n s +:+ sdrop n s = s.
Proof.
  revert s; induction n as [|n IH]; intros [|c s]; simpl; auto.
  rewrite append_cons. f_equal. apply IH.
Qed.

Lemma depth_app s t : depth (s +:+ t) = (depth s + depth t)%Z.
Proof.
  induction s as [|c s IH]; [by rewrite append_nil_l|].
  rewrite append_cons. simpl. rewrite IH. lia.
Qed.

Lemma depth_stake_sdrop n s : (depth (stake n s) + depth (sdrop n s))%Z = depth s.
Proof. by rewrite <- depth_app, stake_sdrop. Qed.
End string_facts.

(** ** The inner loop of [split] *)

Lemma scan_End rest i d ns d' ns' :
  scan rest i d ns = End d' ns' → d' = (d + depth rest)%Z.
Proof.
  revert i d ns; induction rest as [|c rest IH]; intros i d ns; simpl.
  - intros [= <- _]. lia.
  - destruct (is_open c); [intros ->%IH; lia|].
    destruct (is_close c); [intros ->%IH; lia|].
    destruct (is_sep c).
    + destruct ((d =? 0)%Z && ns); [done|]. intros ->%IH; lia.
    + intros ->%IH; lia.
Qed.

(** A cut happens at a separator met at depth zero, strictly after the
    first character that is neither a separator nor a delimiter. *)
Lemma scan_Cut rest i d ns j :
  scan rest i d ns = Cut j →
  ∃ k, j = i + k ∧ k < String.length rest ∧
       (d + depth (stake k rest))%Z = 0%Z ∧ (ns = true ∨ 0 < k).
Proof.
  revert i d ns; induction rest as [|c rest IH]; intros i d ns; simpl; [done|].
  destruct (is_open c) eqn:Ho.
  { intros (k & -> & ? & ? & ?)%IH. exists (S k). simpl. rewrite Ho.
    repeat split; try lia. }
  destruct (is_close c) eqn:Hc.
  { intros (k & -> & ? & ? & ?)%IH. exists (S k). simpl. rewrite Ho, Hc.
    repeat split; try lia. }
  destruct (is_sep c).
  - destruct ((d =? 0)%Z && ns) eqn:Hd.
    + intros [= <-]. apply andb_true_iff in Hd as [Hd%Z.eqb_eq ->].
      exists 0. simpl. repeat split; try lia; auto.
    + intros (k & -> & ? & ? & ?)%IH. exists (S k). simpl. rewrite Ho, Hc.
      repeat split; try lia.
  - intros (k & -> & ? & ? & ?)%IH. exists (S k). simpl. rewrite Ho, Hc.
    repeat split; try lia.
Qed.

Lemma scan_Cut0 s j :
  scan s 0 0 false = Cut j →
  0 < j < String.length s ∧ depth (stake j s) = 0%Z.
Proof.
  intros (k & -> & ? & ? & [?|?])%scan_Cut; [done|]. simpl. split; [lia|lia].
Qed.

(** ** The outer loop: it ends, in a panic exactly when the counter is not
    back to zero *)

Lemma split_loop_total fuel s r :
  String.length s < fuel →
  (depth s ≠ 0%Z ∧ ∃ rest, split_loop fuel s r = Panic ("imbalanced expression: " +:+ rest)) ∨
  (depth s = 0%Z ∧ ∃ toks, split_loop fuel s r = Ok (r ++ toks)).
Proof.
  revert s r; induction fuel as [|fuel IH]; intros s r Hlen; [lia|].
  simpl. destruct (String.eqb_spec s "") as [->|Hne].
  { right. split; [done|]. exists []. by rewrite app_nil_r. }
  destruct (scan s 0 0 false) as [j|d ns] eqn:Hscan.
  - apply scan_Cut0 in Hscan as [Hj Hd].
    assert (String.length (sdrop j s) < fuel) as Hlen'.
    { rewrite length_sdrop. lia. }
    pose proof (depth_stake_sdrop j s) as Hsum.
    destruct (IH (sdrop j s) (r ++ [TrimSpace (stake j s)]) Hlen')
      as [[Hnz [rest ->]]|[Hz [toks ->]]].
    + left. split; [lia|]. by exists rest.
    + right. split; [lia|]. exists (TrimSpace (stake j s) :: toks).
      by rewrite <- app_assoc.
  - apply scan_End in Hscan as ->. rewrite Z.add_0_l.
    destruct (Z.eqb_spec (depth s) 0) as [Hz|Hnz]; simpl.
    + right. split; [done|]. destruct ns; [by exists [TrimSpace s]|].
      exists []. by rewrite app_nil_r.
    + left. split; [done|]. by exists s.
Qed.

(** C8. [split] panics with "imbalanced expression" exactly when the shared
    depth counter (+1 for any of the four opening characters, -1 for any of
    the four closing ones) is not zero at the end of the input, and returns
    the token list exactly when it is zero. *)
Theorem split_panics_iff_unbalanced (s : string) :
  (depth s ≠ 0%Z ↔ ∃ rest, split s = Panic ("imbalanced expression: " +:+ rest)) ∧
  (depth s = 0%Z ↔ ∃ toks, split s = Ok toks).
Proof.
  unfold split.
  destruct (split_loop_total (S (String.length s)) s [])
    as [[Hnz [rest Hr]]|[Hz [toks Hr]]]; [lia| |]; rewrite Hr.
  - split; split; try done.
    + by exists rest.
    + intros [? [=]].
  - split; split; try done.
    + intros [? [=]].
    + by exists toks.
Qed.

(** ** Reasoning about [result] *)

Lemma bind_Ok {A B} (r : result A) (k : A → result B) (b : B) :
  r ≫= k = Ok b ↔ ∃ a, r = Ok a ∧ k a = Ok b.
Proof.
  destruct r as [a|msg|msg|]; cbn.
  - split; [by exists a | by intros (? & [= <-] & ?)].
  - split; [done | by intros (? & [=] & ?)].
  - split; [done | by intros (? & [=] & ?)].
  - split; [done | by intros (? & [=] & ?)].
Qed.

Lemma bind_Fatal {A B} (r : result A) (k : A → result B) (msg : string) :
  r ≫= k = Fatal msg ↔ r = Fatal msg ∨ ∃ a, r = Ok a ∧ k a = Fatal msg.
Proof.
  destruct r as [a|msg'|msg'|]; cbn.
  - split; [intros; right; by exists a | by intros [[=]|(? & [= <-] & ?)]].
  - split; [done | by intros [[=]|(? & [=] & ?)]].
  - split; [intros [= ->]; by left | by intros [[= ->]|(? & [=] & ?)]].
  - split; [done | by intros [[=]|(? & [=] & ?)]].
Qed.

Lemma bind_OutOfFuel {A B} (r : result A) (k : A → result B) :
  r ≫= k = OutOfFuel ↔ r = OutOfFuel ∨ ∃ a, r = Ok a ∧ k a = OutOfFuel.
Proof.
  destruct r as [a|msg'|msg'|]; cbn.
  - split; [intros; right; by exists a | by intros [[=]|(? & [= <-] & ?)]].
  - split; [done | by intros [[=]|(? & [=] & ?)]].
  - split; [done | by intros [[=]|(? & [=] & ?)]].
  - split; [by left | by intros [?|(? & [=] & ?)]].
Qed.

(** Split a hypothesis [H : (x ← r; k) = Ok b] into its two steps. *)
Tactic Notation "bind_inv" hyp(H) "as" simple_intropattern(a) ident(H1) :=
  apply bind_Ok in H as (a & H1 & H); cbv beta iota in H.

(** ** The tokenizer loses a token made of delimiters only *)

Lemma scan_End_quiet rest i d d' :
  scan rest i d false = End d' false → quiet rest = true.
Proof.
  revert i d; induction rest as [|c rest IH]; intros i d; [done|].
  cbn [scan quiet]. destruct (is_open c); [apply IH|].
  destruct (is_close c); [apply IH|].
  destruct (is_sep c).
  - rewrite andb_false_r. apply IH.
  - intros H. exfalso. clear IH. revert H. generalize (S i). revert d.
    induction rest as [|c' rest IH]; intros d j; [done|]. cbn [scan].
    destruct (is_open c'); [apply IH|]. destruct (is_close c'); [apply IH|].
    destruct (is_sep c'); [|apply IH].
    rewrite andb_true_r. destruct (d =? 0)%Z; [done|apply IH].
Qed.

(** What [split] keeps: the input is cut into consecutive segments, each
    token is the trimmed segment, in order, and what is left after the last
    segment has separators and delimiters only.  That rest is where a token
    made of delimiters is lost.  Every cut is at depth zero. *)
Lemma split_loop_segments fuel s r toks :
  split_loop fuel s r = Ok toks →
  ∃ segs rest, s = concat_strings segs +:+ rest ∧
               toks = r ++ (TrimSpace <$> segs) ∧ quiet rest = true ∧
               Forall (fun seg => depth seg = 0%Z) segs ∧ depth rest = 0%Z.
Proof.
  revert s r; induction fuel as [|fuel IH]; intros s r; [done|].
  cbn [split_loop]. destruct (String.eqb_spec s "") as [->|Hne].
  { intros [= <-]. exists [], "". by rewrite app_nil_r. }
  destruct (scan s 0 0 false) as [j|d ns] eqn:Hscan.
  - intros (segs & rest & Hs & -> & Hq & Hd & Hr)%IH.
    apply scan_Cut0 in Hscan as [_ Hj].
    exists (stake j s :: segs), rest. split; [|split; [|split; [done|]]].
    + cbn [concat_strings foldr]. fold (concat_strings segs).
      by rewrite append_assoc, <- Hs, stake_sdrop.
    + by rewrite <- (assoc_L (++)).
    + split; [by constructor|done].
  - apply scan_End in Hscan as Hd. rewrite Z.add_0_l in Hd. subst d.
    destruct (Z.eqb_spec (depth s) 0) as [Hz|]; [|done]. cbn [negb].
    intros [= <-]. destruct ns.
    + exists [s], "". cbn. rewrite !append_nil_r.
      repeat split; try done. by constructor.
    + exists [], s. rewrite app_nil_r. split; [done|]. split; [done|].
      split; [by eapply scan_End_quiet|]. by split.
Qed.

(** C9 (failing input).  On the balanced input ["a ()"] the tokenizer returns
    the single token ["a"]: the second region, ["()"], sets no [nonsp] flag
    and is dropped, so the tokens joined with single spaces are not the input
    up to white space. *)
Theorem split_drops_delimiter_token :
  depth "a ()" = 0%Z ∧
  split "a ()" = Ok ["a"] ∧
  remove_spaces (Join ["a"] " ") = "a" ∧
  remove_spaces "a ()" = "a()".
Proof. repeat split; vm_compute; reflexivity. Qed.

(** ** Splitting a rule at the arrow *)

Lemma has_prefix_arrow s :
  has_prefix arrow s = true ↔ ∃ s', s = String "-" (String ">" s').
Proof.
  unfold arrow. destruct s as [|c [|c' s]]; cbn [has_prefix].
  - split; [done|by intros [? [=]]].
  - destruct (Ascii.eqb_spec "-" c); (split; [done|by intros [? [=]]]).
  - destruct (Ascii.eqb_spec "-" c) as [<-|]; [|split; [done|intros [? [=]]; done]].
    destruct (Ascii.eqb_spec ">" c') as [<-|]; [|split; [done|intros [? [=]]; done]].
    split; [by exists s|done].
Qed.

Lemma split_go_arrow_length s :
  (∀ cur, length (split_go arrow s 0 cur) = S (occurrences arrow s)) ∧
  (∀ cur s', s = String ">" s' →
             length (split_go arrow s 1 cur) = S (occurrences arrow s)).
Proof.
  induction s as [|c s [IH0 IH1]]; [by split|]. split.
  - intros cur. cbn [split_go occurrences].
    destruct (has_prefix arrow (String c s)) eqn:Hp.
    + cbn [length]. apply has_prefix_arrow in Hp as [s' [= -> ->]].
      change (String.length arrow - 1) with 1.
      by rewrite (IH1 "" s').
    + by rewrite IH0.
  - intros cur s' [= -> ->]. cbn [split_go occurrences]. by rewrite IH0.
Qed.

Lemma Split_arrow_length s :
  length (Split s arrow) = S (occurrences arrow s).
Proof. apply split_go_arrow_length. Qed.

Lemma Join_cons x l sep :
  l ≠ [] → Join (x :: l) sep = x +:+ sep +:+ Join l sep.
Proof. by destruct l. Qed.

Lemma split_go_nonempty sep s skip cur : split_go sep s skip cur ≠ [].
Proof.
  revert skip cur; induction s as [|c s IH]; intros skip cur; [done|].
  cbn [split_go]. destruct skip; [|apply IH].
  destruct (has_prefix sep (String c s)); [done|apply IH].
Qed.

Lemma srev_cons_append c cur s : srev (String c cur) +:+ s = srev cur +:+ String c s.
Proof. cbn [srev]. by rewrite append_assoc. Qed.

Lemma split_go_arrow_join s :
  (∀ cur, Join (split_go arrow s 0 cur) arrow = srev cur +:+ s) ∧
  (∀ cur s', s = String ">" s' →
             Join (split_go arrow s 1 cur) arrow = srev cur +:+ s').
Proof.
  induction s as [|c s [IH0 IH1]].
  { split; [|done]. intros cur. cbn. by rewrite append_nil_r. }
  split.
  - intros cur. cbn [split_go].
    destruct (has_prefix arrow (String c s)) eqn:Hp.
    + apply has_prefix_arrow in Hp as [s' [= -> ->]].
      rewrite Join_cons by apply split_go_nonempty.
      change (String.length arrow - 1) with 1.
      by rewrite (IH1 "" s').
    + by rewrite IH0, srev_cons_append.
  - intros cur s' [= -> ->]. cbn [split_go]. by rewrite IH0.
Qed.

Lemma Split_arrow_two rule s0 s1 :
  Split rule arrow = [s0; s1] → rule = s0 +:+ arrow +:+ s1.
Proof.
  intros H. pose proof (proj1 (split_go_arrow_join rule) "") as HJ.
  unfold Split in H. rewrite H in HJ. exact (eq_sym HJ).
Qed.

(** ** The generator ends: neither [log.Fatalf] nor lack of fuel inside
    [genMatch0] and [genResult0] *)

Lemma clean_bind {A B} (r : result A) (k : A → result B) :
  clean r → (∀ a, r = Ok a → clean (k a)) → clean (r ≫= k).
Proof. destruct r; cbn; auto. Qed.

Lemma clean_index s i : clean (index s i).
Proof. unfold index. by destruct (String.get i s). Qed.

Lemma clean_slice s lo hi : clean (slice s lo hi).
Proof. unfold slice. by case_bool_decide. Qed.

Lemma clean_inner s : clean (inner s).
Proof. apply clean_slice. Qed.

Lemma clean_head_token s : clean (head_token s).
Proof. by destruct s. Qed.

Lemma clean_tail_tokens s : clean (tail_tokens s).
Proof. by destruct s. Qed.

Lemma clean_split s : clean (split s).
Proof.
  unfold split.
  destruct (split_loop_total (S (String.length s)) s [])
    as [[_ [rest ->]]|[_ [toks ->]]]; [lia|done|done].
Qed.

Create HintDb clean.
#[local] Hint Resolve clean_index clean_slice clean_inner clean_head_token
  clean_tail_tokens clean_split : clean.

Section string_lengths.
Lemma length_srev s : String.length (srev s) = String.length s.
Proof.
  induction s as [|c s IH]; [done|]. cbn [srev].
  rewrite length_append, IH. simpl. lia.
Qed.

Lemma length_trim_front p2 p3 s :
  String.length (trim_front p2 p3 s) ≤ String.length s.
Proof.
  assert (∀ n s, String.length s ≤ n →
                 String.length (trim_front p2 p3 s) ≤ String.length s) as H;
    [|by apply (H (String.length s))].
  clear s. induction n as [|n IH]; intros s Hn.
  { destruct s; [done|simpl in Hn; lia]. }
  destruct s as [|c1 s1]; [done|]. cbn [trim_front String.length] in *.
  destruct (space1 c1).
  { specialize (IH s1). lia. }
  destruct s1 as [|c2 s2]; [done|]. cbn [String.length] in *.
  destruct (p2 c1 c2).
  { specialize (IH s2). lia. }
  destruct s2 as [|c3 s3]; [done|]. cbn [String.length] in *.
  destruct (p3 c1 c2 c3); [|done].
  specialize (IH s3). lia.
Qed.

Lemma length_TrimSpace s : String.length (TrimSpace s) ≤ String.length s.
Proof.
  unfold TrimSpace, TrimRightSpace, TrimLeftSpace.
  rewrite length_srev.
  etrans; [apply length_trim_front|]. rewrite length_srev.
  apply length_trim_front.
Qed.

Lemma length_inner s body :
  inner s = Ok body → String.length body < String.length s.
Proof.
  unfold inner, slice. case_bool_decide as Hb; [|done]. intros [= <-].
  rewrite length_stake. lia.
Qed.
End string_lengths.

(** No token is longer than the string it comes from. *)
Lemma split_loop_lengths fuel s r n toks :
  split_loop fuel s r = Ok toks →
  String.length s ≤ n →
  Forall (fun t => String.length t ≤ n) r →
  Forall (fun t => String.length t ≤ n) toks.
Proof.
  revert s r; induction fuel as [|fuel IH]; intros s r; [done|].
  cbn [split_loop]. destruct (String.eqb s ""); [by intros [= <-]|].
  destruct (scan s 0 0 false) as [j|d ns] eqn:Hscan.
  - intros Hr Hs Hall. apply IH in Hr; [done| |].
    + rewrite length_sdrop. lia.
    + apply Forall_app. split; [done|]. constructor; [|done].
      etrans; [apply length_TrimSpace|]. rewrite length_stake. lia.
  - destruct (negb (d =? 0)%Z); [done|]. intros [= <-] Hs Hall.
    destruct ns; [|done]. apply Forall_app. split; [done|].
    constructor; [|done]. etrans; [apply length_TrimSpace|done].
Qed.

Lemma split_lengths s toks :
  split s = Ok toks → Forall (fun t => String.length t ≤ String.length s) toks.
Proof. intros H. by eapply split_loop_lengths. Qed.

Lemma tail_tokens_Forall (P : string → Prop) s args :
  tail_tokens s = Ok args → Forall P s → Forall P args.
Proof. destruct s; [done|]. intros [= <-] H. by inversion H. Qed.

Ltac clean_steps :=
  repeat lazymatch goal with
  | |- clean (_ ≫= _) => apply clean_bind; [auto with clean|intros ? _]
  | |- clean (Ok _) => exact I
  | |- clean (match ?x with _ => _ end) => destruct x
  | |- clean _ => solve [auto with clean]
  end.

Lemma clean_genMatch_args rec v fail args argnum m :
  Forall (fun a => ∀ v' m', clean (rec a v' m')) args →
  clean (genMatch_args rec v fail args argnum m).
Proof.
  intros Hall; revert argnum m; induction Hall as [|a args Ha _ IH];
    intros argnum m; [done|].
  cbn [genMatch_args]. apply clean_bind.
  - unfold genMatch_arg. apply clean_bind; [auto with clean|]. intros c _.
    clean_steps.
  - intros [[l1 n1] m1] _. apply clean_bind; [apply IH|].
    by intros [[l2 n2] m2] _.
Qed.

Lemma clean_genMatch0 fuel match_ v fail m top :
  String.length match_ < fuel → clean (genMatch0 fuel match_ v fail m top).
Proof.
  revert match_ v m top; induction fuel as [|fuel IH];
    intros match_ v m top Hlen; [lia|].
  cbn [genMatch0]. apply clean_bind; [auto with clean|]. intros c _.
  destruct (negb (Ascii.eqb c "(")); [by destruct (m !! match_)|].
  apply clean_bind; [auto with clean|]. intros body Hbody%length_inner.
  apply clean_bind; [auto with clean|]. intros s Hs%split_lengths.
  apply clean_bind.
  { destruct top; [done|]. apply clean_bind; [auto with clean|done]. }
  intros op _. apply clean_bind; [auto with clean|]. intros args Hargs.
  apply clean_bind.
  - apply clean_genMatch_args.
    eapply Forall_impl; [by eapply tail_tokens_Forall|].
    cbn beta. intros a Ha v' m'. apply IH. lia.
  - by intros [[ls n] m'] _.
Qed.

Lemma clean_genMatch match_ fail : clean (genMatch match_ fail).
Proof. apply clean_genMatch0. lia. Qed.

Lemma clean_genResult_args rec v args needsType alloc :
  Forall (fun a => ∀ alloc', clean (rec a alloc')) args →
  clean (genResult_args rec v args needsType alloc).
Proof.
  intros Hall; revert needsType alloc; induction Hall as [|a args Ha _ IH];
    intros needsType alloc; [done|].
  cbn [genResult_args]. apply clean_bind.
  - unfold genResult_arg. apply clean_bind; [auto with clean|]. intros c _.
    clean_steps.
  - intros [[l1 n1] a1] _. apply clean_bind; [apply IH|].
    by intros [[l2 n2] a2] _.
Qed.

Lemma clean_genResult0 fuel result_ alloc top :
  String.length result_ < fuel → clean (genResult0 fuel result_ alloc top).
Proof.
  revert result_ alloc top; induction fuel as [|fuel IH];
    intros result_ alloc top Hlen; [lia|].
  cbn [genResult0]. apply clean_bind; [auto with clean|]. intros c _.
  destruct (negb (Ascii.eqb c "(")); [done|].
  apply clean_bind; [auto with clean|]. intros body Hbody%length_inner.
  apply clean_bind; [auto with clean|]. intros s Hs%split_lengths.
  apply clean_bind; [auto with clean|]. intros s0 _.
  destruct (genResult_node top s0 alloc) as [[[v pre] needsType] alloc1].
  apply clean_bind; [auto with clean|]. intros args Hargs.
  apply clean_bind.
  - apply clean_genResult_args.
    eapply Forall_impl; [by eapply tail_tokens_Forall|].
    cbn beta. intros a Ha alloc'. apply IH. lia.
  - by intros [[ls n] a'] _.
Qed.

Lemma clean_genResult result_ : clean (genResult result_).
Proof.
  unfold genResult. apply clean_bind; [apply clean_genResult0; lia|].
  by intros [[ls n] r] _.
Qed.

Lemma clean_not_Fatal {A} (r : result A) msg : clean r → r ≠ Fatal msg.
Proof. by destruct r. Qed.

Lemma clean_not_OutOfFuel {A} (r : result A) : clean r → r ≠ OutOfFuel.
Proof. by destruct r. Qed.

(** C7. Splitting a rule at [->] aborts the run with the fatal error
    "no arrow in rule ..." exactly when the arrow does not occur exactly once
    in the rule, both for the splitting step and for the compilation of the
    rule as a whole; with exactly one arrow the rule is cut into the text
    before and the text after it, the result expression is the trimmed right
    part, and match and condition come from the trimmed left part. *)
Theorem split_rule_fatal_iff (rule : string) (rulenum : nat) :
  (occurrences arrow rule ≠ 1 ↔
     split_rule rule = Fatal ("no arrow in rule " +:+ rule)) ∧
  (occurrences arrow rule ≠ 1 ↔ ∃ msg, gen_rule rulenum rule = Fatal msg) ∧
  (occurrences arrow rule = 1 ↔
     ∃ s0 s1 p, rule = s0 +:+ arrow +:+ s1 ∧ split_rule rule = Ok p ∧
       rule_result p = Trim s1 blanks_nl ∧
       match Index (Trim s0 blanks) "&&" with
       | Some i => rule_match p = Trim (stake i (Trim s0 blanks)) blanks ∧
                   rule_cond p = Trim (sdrop (i + 2) (Trim s0 blanks)) blanks
       | None => rule_match p = Trim s0 blanks ∧ rule_cond p = ""
       end).
Proof.
  pose proof (Split_arrow_length rule) as Hlen.
  pose proof (Split_arrow_two rule) as Htwo.
  assert (split_rule rule = Fatal ("no arrow in rule " +:+ rule) ∨
          ∃ s0 s1, Split rule arrow = [s0; s1] ∧
            split_rule rule =
              match Index (Trim s0 blanks) "&&" with
              | Some i => Ok (RuleParts (Trim (stake i (Trim s0 blanks)) blanks)
                                (Trim (sdrop (i + 2) (Trim s0 blanks)) blanks)
                                (Trim s1 blanks_nl))
              | None => Ok (RuleParts (Trim s0 blanks) "" (Trim s1 blanks_nl))
              end) as Hcases.
  { unfold split_rule. fold arrow.
    destruct (Split rule arrow) as [|s0 [|s1 [|s2 l]]]; auto.
    right. by exists s0, s1. }
  assert (∀ msg, gen_rule rulenum rule = Fatal msg ↔ split_rule rule = Fatal msg)
    as Hgen.
  { intros msg. unfold gen_rule. rewrite bind_Fatal. split; [|by left].
    intros [?|(p & _ & Hk)]; [done|]. exfalso.
    apply bind_Fatal in Hk as [Hk|([lm m] & _ & Hk)].
    { by eapply clean_not_Fatal, Hk; apply clean_genMatch. }
    apply bind_Fatal in Hk as [Hk|(lr & _ & Hk)]; [|done].
    by eapply clean_not_Fatal, Hk; apply clean_genResult. }
  destruct Hcases as [Hf|(s0 & s1 & Hs & Hr)].
  - assert (occurrences arrow rule ≠ 1) as Hne.
    { intros Hocc. unfold split_rule in Hf. fold arrow in Hf.
      rewrite Hocc in Hlen.
      destruct (Split rule arrow) as [|s0 [|s1 [|s2 l]]]; try done.
      by destruct (Index (Trim s0 blanks) "&&"). }
    split; [done|]. split.
    + split; [|done]. intros _. eexists. by apply Hgen.
    + split; [done|]. intros (? & ? & p & _ & Hp & _). congruence.
  - rewrite Hs in Hlen. cbn [length] in Hlen.
    assert (occurrences arrow rule = 1) as Hocc by lia.
    assert (∃ p, split_rule rule = Ok p) as [p Hp].
    { rewrite Hr. destruct (Index (Trim s0 blanks) "&&"); eauto. }
    split; [split; [done|congruence]|]. split.
    + split; [done|]. intros [msg Hm%Hgen]. congruence.
    + split; [|done]. intros _. exists s0, s1, p.
      split; [by apply Htwo|]. split; [done|].
      rewrite Hp in Hr.
      destruct (Index (Trim s0 blanks) "&&"); by injection Hr as ->.
Qed.

(** ** One binding environment for variables, types and auxes *)

Lemma stake_append s t : stake (String.length s) (s +:+ t) = s.
Proof.
  induction s as [|c s IH]; [by destruct t|].
  rewrite append_cons. cbn [String.length stake]. by rewrite IH.
Qed.

Lemma inner_bracketed (o c : ascii) (name : string) :
  inner (String o (name +:+ String c "")) = Ok name.
Proof.
  unfold inner, slice. cbn [String.length]. rewrite length_append.
  cbn [String.length]. rewrite bool_decide_true by lia.
  change (Z.to_nat 1) with 1. cbn [sdrop]. f_equal.
  replace (Z.to_nat _) with (String.length name) by lia.
  apply stake_append.
Qed.

Lemma plain_name_first name :
  plain_name name = true →
  ∃ c rest, name = String c rest ∧ is_open c = false.
Proof.
  destruct name as [|c rest]; [done|]. cbn. intros H%negb_true_iff.
  by exists c, rest.
Qed.

Lemma is_open_false c :
  is_open c = false →
  Ascii.eqb c "(" = false ∧ Ascii.eqb c "{" = false ∧
  Ascii.eqb c "[" = false ∧ Ascii.eqb c "<" = false.
Proof.
  unfold is_open. intros H.
  repeat (apply orb_false_iff in H as [H ?]). done.
Qed.

(** What one argument with [name] at place [k] compiles to: a check against
    the recorded reference if the name is in the map, a binding if not. *)
Lemma genMatch_arg_occurrence k name fuel v fail argnum m :
  plain_name name = true →
  genMatch_arg (fun a v' m => genMatch0 (S fuel) a v' fail m false)
               v fail (occurrence k name) argnum m
  = Ok (match m !! name with
        | Some r => ([check_line k v argnum r fail], argnum + slot k, m)
        | None => ([bind_line k name v argnum], argnum + slot k,
                   <[name := bound_ref k v argnum]> m)
        end).
Proof.
  intros (c & rest & -> & (Hp & Hb & Hk & Ha)%is_open_false)%plain_name_first.
  unfold genMatch_arg. destruct k; cbn [occurrence slot].
  - cbn [index String.get mbind result_bind]. rewrite Ha, Hk, Hb.
    cbn [genMatch0 index String.get mbind result_bind]. rewrite Hp.
    cbn [negb]. rewrite Nat.add_1_r. by destruct (m !! String c rest).
  - change ("<" +:+ String c rest +:+ ">")
      with (String "<" (String c rest +:+ String ">" "")).
    rewrite inner_bracketed.
    cbn [index String.get mbind result_bind Ascii.eqb Bool.eqb].
    rewrite Hb, Nat.add_0_r. by destruct (m !! String c rest).
  - change ("[" +:+ String c rest +:+ "]")
      with (String "[" (String c rest +:+ String "]" "")).
    rewrite inner_bracketed.
    cbn [index String.get mbind result_bind Ascii.eqb Bool.eqb].
    rewrite Hb, Nat.add_0_r. by destruct (m !! String c rest).
Qed.

(** C1 (counterexample).  In [(Add <t> t)] the name [t] is first bound as a
    type variable; the ordinary variable [t] that follows then compiles to the
    check [if v.Args[0] != v.Type], not to the binding [t := v.Args[0]] that
    it compiles to without the type constraint. *)
Lemma type_binding_captures_variable :
  genMatch "(Add <t> t)" "F"
    = Ok ([BindType "t" "v"; IfNe "v.Args[0]" "v.Type" "F"],
          {["t" := "v.Type"]}) ∧
  genMatch "(Add t)" "F"
    = Ok ([Bind "t" "v.Args[0]"], {["t" := "v.Args[0]"]}).
Proof. split; vm_compute; reflexivity. Qed.

(** C1 (amended).  Type variables, aux variables and ordinary variables live
    in one map: when a name is bound by an occurrence at any of the three
    places, the next occurrence of the same name, at any of the three places,
    compiles to a check against the reference recorded by the first, and the
    map keeps that reference. *)
Theorem shared_binding_environment (k1 k2 : position) (name v fail : string)
    (fuel argnum : nat) (m : gmap string string) :
  plain_name name = true →
  m !! name = None →
  genMatch_args (fun a v' m => genMatch0 (S fuel) a v' fail m false) v fail
                [occurrence k1 name; occurrence k2 name] argnum m
  = Ok ([bind_line k1 name v argnum;
         check_line k2 v (argnum + slot k1) (bound_ref k1 v argnum) fail],
        argnum + slot k1 + slot k2,
        <[name := bound_ref k1 v argnum]> m).
Proof.
  intros Hname Hm. cbn [genMatch_args].
  rewrite genMatch_arg_occurrence, Hm by done. cbn [mbind result_bind].
  rewrite genMatch_arg_occurrence, lookup_insert_eq by done.
  reflexivity.
Qed.

Lemma shared_binding_environment_witness :
  genMatch_args (fun a v' m => genMatch0 1 a v' "F" m false) "v" "F"
                ["<t>"; "t"] 0 ∅
  = Ok ([BindType "t" "v"; IfNe "v.Args[0]" "v.Type" "F"], 1,
        <["t" := "v.Type"]> ∅).
Proof.
  exact (shared_binding_environment TypePos OrdinaryPos "t" "v" "F" 0 0 ∅
           eq_refl (lookup_empty _)).
Defined.

(** ** The shape of the code of a match *)

#[local] Hint Constructors match_code : core.

(** Take apart the steps of one turn of an argument loop. *)
Ltac arg_cases H :=
  repeat lazymatch type of H with
  | (if ?b then _ else _) = _ => destruct b eqn:?
  | match ?m !! ?k with _ => _ end = _ => destruct (m !! k) eqn:?
  | (_ ≫= _) = Ok _ =>
      let a := fresh "a" in let Ha := fresh "Ha" in
      apply bind_Ok in H as (a & Ha & H); cbv beta iota in H
  | match ?x with (_, _) => _ end = _ => destruct x
  | Ok _ = Ok _ => injection H as <- <- <-
  end.

Lemma genMatch_args_match_code rec v fail args argnum m ls n m' :
  (∀ a v' m1 l m2, a ∈ args → rec a v' m1 = Ok (l, m2) → match_code fail m1 l m2) →
  genMatch_args rec v fail args argnum m = Ok (ls, n, m') →
  match_code fail m ls m'.
Proof.
  revert argnum m ls n m'; induction args as [|a args IH];
    intros argnum m ls n m' Hrec; cbn [genMatch_args].
  { intros [= <- _ <-]. constructor. }
  intros H. bind_inv H as [[l1 n1] m1] Harg.
  bind_inv H as [[l2 n2] m2] Hrest. injection H as <- <- <-.
  apply mc_app with m1.
  - clear Hrest IH. unfold genMatch_arg in Harg.
    arg_cases Harg; eauto.
    eapply Hrec; [|done]. by left.
  - eapply IH; [|done]. intros ????? Hin. apply Hrec. by right.
Qed.

Lemma genMatch0_match_code fuel match_ v fail m top ls m' :
  genMatch0 fuel match_ v fail m top = Ok (ls, m') → match_code fail m ls m'.
Proof.
  revert match_ v m top ls m'; induction fuel as [|fuel IH];
    intros match_ v m top ls m'; [done|].
  cbn [genMatch0]. intros H. bind_inv H as c Hc.
  destruct (negb (Ascii.eqb c "(")).
  { destruct (m !! match_) eqn:Hm; injection H as <- <-; eauto. }
  bind_inv H as body Hbody. bind_inv H as s Hs. bind_inv H as op Hop.
  bind_inv H as args Hargs. bind_inv H as [[l n] m1] Hloop.
  injection H as <- <-.
  apply mc_app with m.
  - destruct top; [by injection Hop as <-|].
    bind_inv Hop as s0 Hs0. injection Hop as <-. constructor.
  - eapply genMatch_args_match_code; [|done].
    intros ????? _. apply IH.
Qed.

Section match_code_facts.
Context {fail : string}.
Implicit Types m : gmap string string.

Lemma match_code_subseteq m ls m' : match_code fail m ls m' → m ⊆ m'.
Proof.
  induction 1; try done; try by apply insert_subseteq.
  by etrans.
Qed.

Lemma match_code_bindings m ls m' :
  match_code fail m ls m' →
  ∀ x r, (x, r) ∈ bindings ls ↔ m !! x = None ∧ m' !! x = Some r.
Proof.
  induction 1 as [m|m x0 r0 v _|m x0 v Hx0|m v op|m v t|m x0 v Hx0|m v x0
                  |m x0 v Hx0|m v n code|m l1 m1 l2 m2 H1 IH1 H2 IH2];
    intros x r; unfold bindings; cbn.
  1,2,4,5,7,9: split; [by intros ?%elem_of_nil|intros [? ?]; congruence].
  1,2,3: rewrite list_elem_of_singleton; split;
    [intros [= -> ->]; by rewrite lookup_insert_eq
    |intros [Hn Hs]; destruct (decide (x0 = x)) as [->|Hne];
     [rewrite lookup_insert_eq in Hs; congruence
     |rewrite lookup_insert_ne in Hs by done; congruence]].
  rewrite omap_app, elem_of_app. fold (bindings l1) (bindings l2).
  rewrite IH1, IH2.
  pose proof (match_code_subseteq _ _ _ H1) as Hs1.
  pose proof (match_code_subseteq _ _ _ H2) as Hs2.
  split.
  - intros [[Hn Hs]|[Hn Hs]].
    + split; [done|]. by eapply lookup_weaken.
    + split; [|done]. destruct (m !! x) eqn:Hm; [|done].
      eapply lookup_weaken in Hm; [|done]. congruence.
  - intros [Hn Hs]. destruct (m1 !! x) as [r1|] eqn:Hm1; [|by right].
    left. split; [done|].
    eapply lookup_weaken in Hm1 as Hm2; [|done]. congruence.
Qed.

Lemma match_code_NoDup m ls m' :
  match_code fail m ls m' → NoDup (bindings ls).*1.
Proof.
  induction 1 as [m|m x0 r0 v _|m x0 v Hx0|m v op|m v t|m x0 v Hx0|m v x0
                  |m x0 v Hx0|m v n code|m l1 m1 l2 m2 H1 IH1 H2 IH2];
    unfold bindings; cbn [omap binding fmap list_fmap];
    try apply NoDup_nil_2; try apply NoDup_singleton.
  rewrite omap_app, fmap_app. fold (bindings l1) (bindings l2).
  apply NoDup_app. split; [done|]. split; [|done].
  intros x [[x' r1] [-> Hin1]]%list_elem_of_fmap
           [[x'' r2] [Heq Hin2]]%list_elem_of_fmap.
  cbn in Heq. subst x''.
  apply (match_code_bindings _ _ _ H1) in Hin1 as [_ Hs].
  apply (match_code_bindings _ _ _ H2) in Hin2 as [Hn _]. congruence.
Qed.

Lemma match_code_checks m ls m' :
  match_code fail m ls m' →
  ∀ a b f, IfNe a b f ∈ ls → f = fail ∧ ∃ x, m' !! x = Some b.
Proof.
  induction 1 as [m|m x0 r0 v Hx0|m x0 v Hx0|m v op|m v t|m x0 v Hx0|m v x0
                  |m x0 v Hx0|m v n code|m l1 m1 l2 m2 H1 IH1 H2 IH2];
    intros a b f Hin.
  1: by apply elem_of_nil in Hin.
  1: apply list_elem_of_singleton in Hin as [= -> -> ->]; eauto.
  1-7: by apply list_elem_of_singleton in Hin.
  apply elem_of_app in Hin as [Hin|Hin]; [|by eapply IH2].
  destruct (IH1 _ _ _ Hin) as [-> [x Hx]]. split; [done|].
  exists x. eapply lookup_weaken; [done|]. by eapply match_code_subseteq.
Qed.
End match_code_facts.

(** C3 (counterexample).  In [(Add <x> x x)] the name [x] is an ordinary
    variable at two places; its first ordinary occurrence does not compile to
    a binding but to a check against [v.Type], which the type constraint
    recorded for the same name. *)
Lemma first_occurrence_not_bound :
  genMatch "(Add <x> x x)" "F"
    = Ok ([BindType "x" "v";
           IfNe "v.Args[0]" "v.Type" "F";
           IfNe "v.Args[1]" "v.Type" "F"],
          {["x" := "v.Type"]}).
Proof. vm_compute; reflexivity. Qed.

(** C3 (amended).  An ordinary variable compiles to a binding of the name to
    the current reference when the name is not in the map of the rule, and to
    the check [if v != x fail] against the recorded reference [x] when it is
    (bound by an earlier ordinary occurrence, or by a type or aux variable of
    the same name).  Over the whole match of a rule no binding is ever
    replaced: the map only grows, the names bound by the code are exactly the
    new entries of the map, no name is bound twice, and every check between
    references leaves through [fail] and compares with a recorded
    reference. *)
Theorem variable_binds_once_then_checks (fuel : nat) (match_ v fail : string)
    (m : gmap string string) (top : bool) :
  (∀ c rest, match_ = String c rest → Ascii.eqb c "(" = false →
     genMatch0 (S fuel) match_ v fail m top
     = Ok (match m !! match_ with
           | Some x => ([IfNe v x fail], m)
           | None => ([Bind match_ v], <[match_ := v]> m)
           end)) ∧
  (String.length match_ < fuel →
   genMatch0 fuel match_ v fail m top ≠ OutOfFuel) ∧
  (∀ ls m', genMatch0 fuel match_ v fail m top = Ok (ls, m') →
     m ⊆ m' ∧
     NoDup (bindings ls).*1 ∧
     (∀ x r, (x, r) ∈ bindings ls ↔ m !! x = None ∧ m' !! x = Some r) ∧
     (∀ a b f, IfNe a b f ∈ ls → f = fail ∧ ∃ x, m' !! x = Some b)).
Proof.
  split; [|split].
  - intros c rest -> Hc. cbn [genMatch0 index String.get mbind result_bind].
    rewrite Hc. cbn [negb]. by destruct (m !! String c rest).
  - intros Hlen. by apply clean_not_OutOfFuel, clean_genMatch0.
  - intros ls m' H%genMatch0_match_code. split; [|split; [|split]].
    + by eapply match_code_subseteq.
    + by eapply match_code_NoDup.
    + by eapply match_code_bindings.
    + by eapply match_code_checks.
Qed.

(** ** The positional index of the arguments of a match *)

Lemma count_slots_app pre post :
  count_slots (pre ++ post) = count_slots pre + count_slots post.
Proof.
  induction pre as [|a pre IH]; [done|].
  change (slots a + count_slots (pre ++ post)
          = slots a + count_slots pre + count_slots post).
  rewrite IH. lia.
Qed.

Lemma index_0_Ok a c : index a 0 = Ok c → ∃ rest, a = String c rest.
Proof. destruct a as [|c' rest]; [done|]. intros [= ->]. by exists rest. Qed.

(** One turn of the loop, by kind of argument. *)
Lemma genMatch_arg_kind rec v fail a argnum m l n m' :
  genMatch_arg rec v fail a argnum m = Ok (l, n, m') →
  n = argnum + slots a ∧
  match kind a with
  | TypeArg => ∃ t, l = [IfTypeNe v t fail] ∨ l = [BindType t v]
  | AuxArg => ∃ x, l = [IfAuxNe v x fail] ∨ l = [BindAux x v]
  | PinArg => ∃ code, l = [IfArgNe v argnum code fail]
  | SubArg => rec a (arg_ref v argnum) m = Ok (l, m')
  end.
Proof.
  unfold genMatch_arg. intros H. bind_inv H as c Hc.
  apply index_0_Ok in Hc as [rest ->]. unfold slots. cbn [kind].
  destruct (Ascii.eqb c "<").
  { arg_cases H; (split; [lia|]); eauto. }
  destruct (Ascii.eqb c "[").
  { arg_cases H; (split; [lia|]); eauto. }
  destruct (Ascii.eqb c "{").
  { arg_cases H. split; [lia|]. eauto. }
  bind_inv H as [l1 m1] Hrec. injection H as <- <- <-. split; [lia|done].
Qed.

Lemma genMatch_args_app rec v fail pre post argnum m :
  genMatch_args rec v fail (pre ++ post) argnum m
  = '(l1, n1, m1) ← genMatch_args rec v fail pre argnum m;
    '(l2, n2, m2) ← genMatch_args rec v fail post n1 m1;
    Ok (l1 ++ l2, n2, m2).
Proof.
  revert argnum m; induction pre as [|a pre IH]; intros argnum m.
  { cbn [app genMatch_args mbind result_bind].
    destruct (genMatch_args rec v fail post argnum m) as [[[l2 n2] m2]| | |];
      done. }
  cbn [app genMatch_args].
  destruct (genMatch_arg rec v fail a argnum m) as [[[l0 n0] m0]| | |];
    cbn [mbind result_bind]; try done.
  rewrite IH.
  destruct (genMatch_args rec v fail pre n0 m0) as [[[l1 n1] m1]| | |];
    cbn [mbind result_bind]; try done.
  destruct (genMatch_args rec v fail post n1 m1) as [[[l2 n2] m2]| | |];
    cbn [mbind result_bind]; try done.
  by rewrite app_assoc.
Qed.

Lemma genMatch_args_argnum rec v fail args argnum m ls n m' :
  genMatch_args rec v fail args argnum m = Ok (ls, n, m') →
  n = argnum + count_slots args.
Proof.
  revert argnum m ls n m'; induction args as [|a args IH];
    intros argnum m ls n m'; cbn [genMatch_args count_slots foldr].
  { intros [= _ <- _]. lia. }
  intros H. bind_inv H as [[l1 n1] m1] Harg.
  bind_inv H as [[l2 n2] m2] Hrest. injection H as <- <- <-.
  apply genMatch_arg_kind in Harg as [-> _]. apply IH in Hrest as ->.
  fold (count_slots args). lia.
Qed.

(** C10. In the arguments of an op-node of a match, the argument after the
    arguments [pre] is compiled with the child index at its start value plus
    the number of literal pins, variables and sub-patterns in [pre]; a type or
    aux constraint leaves the index alone and compiles to one check or binding
    on the type or aux field of the node [v] itself; a literal pin compiles to
    the check of [v.Args[i]] and a variable or sub-pattern to the match of
    [v.Args[i]], and each moves the index by one. *)
Theorem argnum_counts_positional
    (rec : string → string → gmap string string →
           result (list line * gmap string string))
    (v fail : string) (pre : list string) (a : string) (post : list string)
    (argnum : nat) (m : gmap string string)
    (ls : list line) (n' : nat) (m' : gmap string string) :
  genMatch_args rec v fail (pre ++ a :: post) argnum m = Ok (ls, n', m') →
  n' = argnum + count_slots (pre ++ a :: post) ∧
  ∃ l1 m1 l2 m2 l3,
    ls = l1 ++ l2 ++ l3 ∧
    genMatch_args rec v fail pre argnum m
      = Ok (l1, argnum + count_slots pre, m1) ∧
    genMatch_arg rec v fail a (argnum + count_slots pre) m1
      = Ok (l2, argnum + count_slots pre + slots a, m2) ∧
    genMatch_args rec v fail post (argnum + count_slots pre + slots a) m2
      = Ok (l3, n', m') ∧
    match kind a with
    | TypeArg => ∃ t, l2 = [IfTypeNe v t fail] ∨ l2 = [BindType t v]
    | AuxArg => ∃ x, l2 = [IfAuxNe v x fail] ∨ l2 = [BindAux x v]
    | PinArg => ∃ code, l2 = [IfArgNe v (argnum + count_slots pre) code fail]
    | SubArg => rec a (arg_ref v (argnum + count_slots pre)) m1 = Ok (l2, m2)
    end.
Proof.
  intros H. split; [by eapply genMatch_args_argnum|].
  rewrite genMatch_args_app in H.
  bind_inv H as [[l1 n1] m1] Hpre. bind_inv H as [[l23 n23] m23] Hrest.
  injection H as <- <- <-. cbn [genMatch_args] in Hrest.
  bind_inv Hrest as [[l2 n2] m2] Harg. bind_inv Hrest as [[l3 n3] m3] Hpost.
  injection Hrest as <- <- <-.
  pose proof (genMatch_args_argnum _ _ _ _ _ _ _ _ _ Hpre) as ->.
  pose proof (genMatch_arg_kind _ _ _ _ _ _ _ _ _ Harg) as [-> Hkind].
  by exists l1, m1, l2, m2, l3.
Qed.

Lemma argnum_counts_positional_witness :
  let rec := fun a v' m => genMatch0 1 a v' "F" m false in
  let code := [BindType "t" "v"; Bind "x" "v.Args[0]"; BindAux "c" "v";
               IfArgNe "v" 1 "nil" "F"; Bind "y" "v.Args[2]"] in
  let m' := <["y" := "v.Args[2]"]> (<["c" := "v.Aux"]>
              (<["x" := "v.Args[0]"]> (<["t" := "v.Type"]> ∅))) in
  genMatch_args rec "v" "F" (["<t>"; "x"; "[c]"] ++ "{nil}" :: ["y"]) 0 ∅
    = Ok (code, 3, m') ∧
  3 = 0 + count_slots (["<t>"; "x"; "[c]"] ++ "{nil}" :: ["y"]).
Proof.
  intros rec code m'.
  assert (genMatch_args rec "v" "F" (["<t>"; "x"; "[c]"] ++ "{nil}" :: ["y"]) 0 ∅
          = Ok (code, 3, m')) as H by (vm_compute; reflexivity).
  exact (conj H (proj1 (argnum_counts_positional _ _ _ _ _ _ _ _ _ _ _ H))).
Defined.

(** ** The code of a result *)

Lemma itoa_inj n k : itoa n = itoa k → n = k.
Proof.
  unfold itoa. intros H. apply Unsigned.to_uint_inj.
  assert (Some (Nat.to_uint n) = Some (Nat.to_uint k)) as [=]; [|done].
  by rewrite <- !NilEmpty.usu, H.
Qed.

Lemma itoa_nonempty n : itoa n ≠ "".
Proof.
  unfold itoa. intros H.
  pose proof (NilEmpty.usu (Nat.to_uint n)) as Hu. rewrite H in Hu.
  cbn in Hu. injection Hu as Hu.
  pose proof (Unsigned.of_to n) as Hof. rewrite <- Hu in Hof. cbn in Hof.
  subst n. done.
Qed.

Lemma value_name_inj n k : value_name n = value_name k → n = k.
Proof. unfold value_name. intros [= H]. by apply itoa_inj. Qed.

Lemma value_name_not_v k : value_name k ≠ "v".
Proof.
  unfold value_name. intros [= H]. by apply (itoa_nonempty k).
Qed.

Lemma fresh_in_mono lo hi lo' hi' l :
  lo' ≤ lo → hi ≤ hi' → fresh_in lo hi l → fresh_in lo' hi' l.
Proof. intros ?? (k & ? & ?). exists k. split; [lia|done]. Qed.

Lemma appended_app v l1 l2 : appended v (l1 ++ l2) = appended v l1 ++ appended v l2.
Proof. unfold appended. apply omap_app. Qed.

Lemma appended_fresh v lo hi ls :
  (∀ k, lo ≤ k → v ≠ value_name k) →
  Forall (fresh_in lo hi) ls → appended v ls = [].
Proof.
  intros Hv. induction 1 as [|l ls (k & Hk & Ht) _ IH]; [done|].
  unfold appended in *. cbn [omap list_omap]. rewrite IH.
  destruct l; try done. cbn in Ht. injection Ht as ->.
  destruct (String.eqb_spec (value_name k) v) as [<-|]; [|done].
  destruct (Hv k); [lia|done].
Qed.

(** One turn of the argument loop of a result, by kind of argument. *)
Lemma genResult_arg_kind rec v a nt alloc l1 nt1 alloc1 :
  genResult_arg rec v a nt alloc = Ok (l1, nt1, alloc1) →
  match kind a with
  | TypeArg => ∃ t, l1 = [SetTypeTo v t] ∧ nt1 = false ∧ alloc1 = alloc
  | AuxArg => ∃ x, l1 = [SetAuxTo v x] ∧ nt1 = nt ∧ alloc1 = alloc
  | PinArg => ∃ code, inner a = Ok code ∧ l1 = [AddArg v code] ∧
                      nt1 = nt ∧ alloc1 = alloc
  | SubArg => ∃ l x, rec a alloc = Ok (l, alloc1, x) ∧
                     l1 = l ++ [AddArg v x] ∧ nt1 = nt
  end.
Proof.
  unfold genResult_arg. intros H. bind_inv H as c Hc.
  apply index_0_Ok in Hc as [rest ->]. cbn [kind].
  destruct (Ascii.eqb c "<").
  { bind_inv H as t Ht. bind_inv H as c' Hc'. bind_inv H as t' Ht'.
    injection H as <- <- <-. eauto. }
  destruct (Ascii.eqb c "[").
  { bind_inv H as t Ht. bind_inv H as c' Hc'. bind_inv H as t' Ht'.
    injection H as <- <- <-. eauto. }
  destruct (Ascii.eqb c "{").
  { bind_inv H as code Hcode. injection H as <- <- <-. eauto. }
  bind_inv H as [[l alloc'] x] Hrec. injection H as <- <- <-. eauto.
Qed.

Lemma appended_AddArg v x : appended v [AddArg v x] = [x].
Proof. unfold appended. cbn. by rewrite String.eqb_refl. Qed.

Lemma genResult_args_spec rec v args nt alloc ls nt' alloc' :
  Forall (result_call rec) args →
  (∀ k, alloc ≤ k → v ≠ value_name k) →
  genResult_args rec v args nt alloc = Ok (ls, nt', alloc') →
  alloc ≤ alloc' ∧
  Forall (fun l => own v l ∨ fresh_in alloc alloc' l) ls ∧
  nt' = nt && negb (existsb is_type_arg args) ∧
  Forall2 child_of (List.filter positional args) (appended v ls) ∧
  (existsb is_type_arg args = true ↔ ∃ t, SetTypeTo v t ∈ ls).
Proof.
  intros Hall; revert nt alloc ls nt' alloc';
    induction Hall as [|a args Ha _ IH]; intros nt alloc ls nt' alloc' Hv;
    cbn [genResult_args].
  { intros [= <- <- <-]. rewrite andb_true_r.
    split; [done|]. split; [constructor|]. split; [done|].
    split; [constructor|]. split; [done|]. by intros [t ?%elem_of_nil]. }
  intros H. bind_inv H as [[l1 nt1] alloc1] Harg.
  bind_inv H as [[l2 nt2] alloc2] Hrest. injection H as <- <- <-.
  apply genResult_arg_kind in Harg.
  assert (alloc ≤ alloc1 ∧
          Forall (fun l => own v l ∨ fresh_in alloc alloc1 l) l1 ∧
          nt1 = nt && negb (is_type_arg a) ∧
          (if positional a
           then ∃ x, appended v l1 = [x] ∧ child_of a x
           else appended v l1 = []) ∧
          (is_type_arg a = true ↔ ∃ t, SetTypeTo v t ∈ l1))
    as (Hle1 & Hown1 & -> & Happ1 & Hty1).
  { unfold is_type_arg, positional, child_of.
    destruct (kind a) eqn:Hk.
    - destruct Harg as (t & -> & -> & ->). rewrite andb_false_r.
      repeat split; try done.
      + apply Forall_singleton. left. left. eauto.
      + intros _. exists t. by left.
    - destruct Harg as (x & -> & -> & ->). rewrite andb_true_r.
      repeat split; try done.
      + apply Forall_singleton. left. right. left. eauto.
      + by intros [t [=]%list_elem_of_singleton].
    - destruct Harg as (code & Hcode & -> & -> & ->). rewrite andb_true_r.
      repeat split; try done.
      + apply Forall_singleton. left. right. right. eauto.
      + exists code. by rewrite appended_AddArg.
      + by intros [t [=]%list_elem_of_singleton].
    - destruct Harg as (l & x & Hrec & -> & ->). rewrite andb_true_r.
      apply Ha in Hrec as (Hle & Hfresh & Hx).
      repeat split; try done.
      + apply Forall_app. split.
        * eapply Forall_impl; [done|]. intros; by right.
        * apply Forall_singleton. left. right. right. eauto.
      + exists x. rewrite appended_app, appended_AddArg.
        rewrite (appended_fresh v alloc alloc1) by done.
        split; [done|].
        destruct (is_sexpr a); [by exists alloc|done].
      + intros [t [Hin|[=]%list_elem_of_singleton]%elem_of_app]. exfalso.
        eapply Forall_forall in Hfresh as (k & Hrange & Ht); [|done].
        cbn in Ht. injection Ht as ->. destruct (Hv k); [lia|done]. }
  apply IH in Hrest as (Hle2 & Hown2 & -> & Happ2 & Hty2);
    [|intros k Hk; apply Hv; lia].
  split; [lia|]. split; [|split; [|split]].
  - apply Forall_app. split.
    + eapply Forall_impl; [done|]. intros l [?|?]; [by left|right].
      eapply fresh_in_mono; [| |done]; lia.
    + eapply Forall_impl; [done|]. intros l [?|?]; [by left|right].
      eapply fresh_in_mono; [| |done]; lia.
  - cbn [existsb]. by destruct nt, (is_type_arg a), (existsb is_type_arg args).
  - rewrite appended_app. cbn [List.filter].
    destruct (positional a).
    + destruct Happ1 as (x & -> & Hx). by constructor.
    + by rewrite Happ1.
  - cbn [existsb]. rewrite orb_true_iff, Hty1, Hty2. split.
    + intros [[t Hin]|[t Hin]]; exists t; apply elem_of_app; auto.
    + intros [t [Hin|Hin]%elem_of_app]; eauto.
Qed.

(** A call of [genResult0] at an op-node, step by step. *)
Lemma genResult0_node fuel result_ rest alloc top ls alloc' r :
  result_ = String "(" rest →
  genResult0 fuel result_ alloc top = Ok (ls, alloc', r) →
  ∃ fuel' body op args lb nt',
    fuel = S fuel' ∧ inner result_ = Ok body ∧ split body = Ok (op :: args) ∧
    let '(v, pre, nt, alloc1) := genResult_node top op alloc in
    genResult_args (fun a alloc => genResult0 fuel' a alloc false)
                   v args nt alloc1 = Ok (lb, nt', alloc') ∧
    ls = pre ++ lb ++ (if nt' then [SetType v] else []) ∧ r = v.
Proof.
  intros -> H. destruct fuel as [|fuel']; [done|].
  cbn [genResult0 index String.get mbind result_bind negb Ascii.eqb Bool.eqb] in H.
  change (Ascii.eqb "(" "(") with true in H. cbn [negb] in H.
  bind_inv H as body Hbody. bind_inv H as s Hs. bind_inv H as op Hop.
  destruct s as [|op' args]; [done|]. injection Hop as ->.
  exists fuel', body, op, args.
  destruct (genResult_node top op alloc) as [[[v pre] nt] alloc1].
  bind_inv H as args' Hargs. injection Hargs as <-.
  bind_inv H as [[lb nt'] alloc2] Hloop. injection H as <- <- <-.
  by exists lb, nt'.
Qed.

Lemma genResult0_call fuel a :
  result_call (fun a alloc => genResult0 fuel a alloc false) a.
Proof.
  revert a; induction fuel as [|fuel IH]; intros a alloc l alloc' x H; [done|].
  destruct a as [|c rest]; [done|].
  destruct (Ascii.eqb_spec c "(") as [->|Hc].
  - eapply genResult0_node in H as
      (fuel' & body & op & args & lb & nt' & [= <-] & Hbody & Hs & Hloop);
      [|done].
    cbn [genResult_node] in Hloop. destruct Hloop as (Hloop & -> & ->).
    apply genResult_args_spec in Hloop as (Hle & Hown & _);
      [|apply Forall_forall; intros; apply IH
       |intros k Hk Heq%value_name_inj; lia].
    split; [lia|]. split; [|done].
    assert (fresh_in alloc alloc' (NewValue (value_name alloc) op)) as Hnew.
    { exists alloc. split; [lia|done]. }
    assert (fresh_in alloc alloc' (SetType (value_name alloc))) as Hset.
    { exists alloc. split; [lia|done]. }
    constructor; [done|]. apply Forall_app. split.
    + eapply Forall_impl; [done|]. intros l [Hl|Hl].
      * exists alloc. split; [lia|].
        by destruct Hl as [[t ->]|[[y ->]|[y ->]]].
      * eapply fresh_in_mono; [| |done]; lia.
    + destruct nt'; by repeat constructor.
  - cbn [genResult0 index String.get mbind result_bind] in H.
    apply Ascii.eqb_neq in Hc. rewrite Hc in H. cbn [negb] in H.
    injection H as <- <- <-. cbn [is_sexpr]. rewrite Hc. by repeat split.
Qed.

(** C5. An op-node of a result below the top level is built in a new value
    [v%d], allocated by [NewValue(Op.., TypeInvalid, nil)] as the first line of
    its code; the code ends with the type derivation [v%d.SetType()] exactly
    when none of the arguments of the node is a type constraint, after every
    line written for the arguments (so after all its [AddArg]); no other
    [SetType] or [NewValue] of that value is written, and with a type
    constraint the type is assigned by [v%d.Type = ...]. *)
Theorem nested_node_derives_type_last (fuel : nat) (result_ rest : string)
    (alloc : nat) (ls : list line) (alloc' : nat) (r : string) :
  result_ = String "(" rest →
  genResult0 fuel result_ alloc false = Ok (ls, alloc', r) →
  ∃ op args body,
    (inner result_ ≫= split) = Ok (op :: args) ∧
    r = value_name alloc ∧
    render (NewValue r op)
      = r +:+ " := v.Block.NewValue(Op" +:+ op +:+ ", TypeInvalid, nil)" +:+ nl ∧
    ls = NewValue r op :: body ++
           (if existsb is_type_arg args then [] else [SetType r]) ∧
    (SetType r ∉ body) ∧
    (∀ op', NewValue r op' ∉ body) ∧
    (existsb is_type_arg args = true ↔ ∃ t, SetTypeTo r t ∈ body).
Proof.
  intros Hres H.
  eapply genResult0_node in H as
    (fuel' & body & op & args & lb & nt' & -> & Hbody & Hs & Hloop); [|done].
  cbn [genResult_node] in Hloop. destruct Hloop as (Hloop & -> & ->).
  apply genResult_args_spec in Hloop as (Hle & Hown & -> & _ & Hty);
    [|apply Forall_forall; intros; apply genResult0_call
     |intros k Hk Heq%value_name_inj; lia].
  exists op, args, lb. rewrite Hbody. cbn [mbind result_bind].
  split; [done|]. split; [done|]. split; [done|]. split.
  { cbn [andb app]. by destruct (existsb is_type_arg args). }
  assert (∀ l, l ∈ lb → target l = Some (value_name alloc) →
               own (value_name alloc) l) as Hmine.
  { intros l Hin Ht. eapply Forall_forall in Hown as [?|(k & Hk & Ht')]; [done| |done].
    assert (value_name alloc = value_name k) as ?%value_name_inj by congruence.
    lia. }
  split; [|split; [|done]].
  - intros Hin. by destruct (Hmine _ Hin eq_refl) as [[? [=]]|[[? [=]]|[? [=]]]].
  - intros op' Hin.
    by destruct (Hmine _ Hin eq_refl) as [[? [=]]|[[? [=]]|[? [=]]]].
Qed.

Lemma nested_node_derives_type_last_witness :
  genResult0 9 "(Neg y)" 3 false
    = Ok ([NewValue "v3" "Neg"; AddArg "v3" "y"; SetType "v3"], 4, "v3") ∧
  ∃ op args, (inner "(Neg y)" ≫= split) = Ok (op :: args) ∧
             "v3" = value_name 3.
Proof.
  assert (genResult0 9 "(Neg y)" 3 false
          = Ok ([NewValue "v3" "Neg"; AddArg "v3" "y"; SetType "v3"], 4, "v3"))
    as H by (vm_compute; reflexivity).
  split; [exact H|].
  destruct (nested_node_derives_type_last 9 "(Neg y)" "Neg y)" 3 _ _ _ eq_refl H)
    as (op & args & body & Hsplit & Hname & _).
  exact (ex_intro _ op (ex_intro _ args (conj Hsplit Hname))).
Defined.

(** C6. An op-node at the top of a result is built in the matched value [v]:
    the code sets [v.Op], clears [v.Aux], empties [v.Args], and then takes the
    arguments in order; the references appended to [v] are, in order, those of
    the literal pins, variables and nested op-nodes among the arguments.  No
    [v.SetType()] is written for it: the type of [v] is assigned exactly when
    an argument is a type constraint, and otherwise left alone. *)
Theorem top_node_reuses_matched_value (fuel : nat) (result_ rest : string)
    (alloc : nat) (ls : list line) (alloc' : nat) (r : string) :
  result_ = String "(" rest →
  genResult0 fuel result_ alloc true = Ok (ls, alloc', r) →
  r = "v" ∧
  ∃ op args body,
    (inner result_ ≫= split) = Ok (op :: args) ∧
    ls = SetOp op :: ClearAux :: ResetArgs :: body ∧
    Forall2 child_of (List.filter positional args) (appended "v" body) ∧
    (SetType "v" ∉ ls) ∧
    (existsb is_type_arg args = true ↔ ∃ t, SetTypeTo "v" t ∈ ls).
Proof.
  intros Hres H.
  eapply genResult0_node in H as
    (fuel' & body & op & args & lb & nt' & -> & Hbody & Hs & Hloop); [|done].
  cbn [genResult_node] in Hloop. destruct Hloop as (Hloop & -> & ->).
  apply genResult_args_spec in Hloop as (Hle & Hown & -> & Hch & Hty);
    [|apply Forall_forall; intros; apply genResult0_call
     |intros k _ Heq; by apply (value_name_not_v k)].
  split; [done|]. cbn [andb app]. rewrite app_nil_r.
  exists op, args, lb. rewrite Hbody. cbn [mbind result_bind].
  split; [done|]. split; [done|]. split; [done|].
  assert (∀ l, l ∈ lb → target l = Some "v" → own "v" l) as Hmine.
  { intros l Hin Ht. eapply Forall_forall in Hown as [?|(k & Hk & Ht')]; [done| |done].
    assert (value_name k = "v") by congruence.
    by destruct (value_name_not_v k). }
  split.
  - intros Hin. do 3 (apply elem_of_cons in Hin as [[=]|Hin]).
    by destruct (Hmine _ Hin eq_refl) as [[? [=]]|[[? [=]]|[? [=]]]].
  - rewrite Hty. split; intros [t Hin]; exists t.
    + by do 3 right.
    + by do 3 (apply elem_of_cons in Hin as [[=]|Hin]).
Qed.

Lemma top_node_reuses_matched_value_witness :
  genResult0 20 "(Mul x (Const [2]))" 0 true
    = Ok ([SetOp "Mul"; ClearAux; ResetArgs; AddArg "v" "x";
           NewValue "v0" "Const"; SetAuxTo "v0" "2"; SetType "v0";
           AddArg "v" "v0"], 1, "v") ∧
  "v" = "v".
Proof.
  assert (genResult0 20 "(Mul x (Const [2]))" 0 true
    = Ok ([SetOp "Mul"; ClearAux; ResetArgs; AddArg "v" "x";
           NewValue "v0" "Const"; SetAuxTo "v0" "2"; SetType "v0";
           AddArg "v" "v0"], 1, "v")) as H by (vm_compute; reflexivity).
  split; [exact H|].
  exact (proj1 (top_node_reuses_matched_value 20 _ "Mul x (Const [2]))" 0 _ _ _
                  eq_refl H)).
Defined.

(** ** The control flow of the generated function *)

Lemma match_code_lines fail m ls m' :
  match_code fail m ls m' → Forall (code_line fail) ls.
Proof.
  induction 1; try (apply Forall_singleton; split; cbn; auto);
    [constructor|by apply Forall_app].
Qed.

Lemma target_code_line fail l : is_Some (target l) → code_line fail l.
Proof. intros [x Hx]. destruct l; try done; split; cbn; auto. Qed.

Lemma genResult0_lines fuel result_ alloc top ls alloc' r fail :
  genResult0 fuel result_ alloc top = Ok (ls, alloc', r) →
  Forall (code_line fail) ls.
Proof.
  intros H. destruct top.
  2:{ apply genResult0_call in H as (_ & Hfresh & _).
      eapply Forall_impl; [done|]. intros l (k & _ & Ht).
      apply target_code_line. by rewrite Ht. }
  destruct result_ as [|c rest]; [by destruct fuel|].
  destruct (Ascii.eqb_spec c "(") as [->|Hc].
  - eapply genResult0_node in H as
      (fuel' & body & op & args & lb & nt' & -> & Hbody & Hs & Hloop); [|done].
    cbn [genResult_node] in Hloop. destruct Hloop as (Hloop & -> & ->).
    apply genResult_args_spec in Hloop as (Hle & Hown & _);
      [|apply Forall_forall; intros; apply genResult0_call
       |intros k _ Heq; by apply (value_name_not_v k)].
    repeat (constructor; [by apply target_code_line|]).
    apply Forall_app. split.
    + eapply Forall_impl; [done|]. intros l [Hl|(k & _ & Ht)].
      * apply target_code_line.
        by destruct Hl as [[t ->]|[[y ->]|[y ->]]].
      * apply target_code_line. by rewrite Ht.
    + destruct nt'; [|constructor].
      apply Forall_singleton. by apply target_code_line.
  - destruct fuel as [|fuel']; [done|].
    cbn [genResult0 index String.get mbind result_bind] in H.
    apply Ascii.eqb_neq in Hc. rewrite Hc in H. cbn [negb] in H.
    injection H as <- <- <-. constructor.
Qed.

Lemma rule_code_lines rulenum rule code :
  rule_code rulenum rule = Ok code → Forall (code_line (goto_end rulenum)) code.
Proof.
  unfold rule_code. intros H. bind_inv H as p Hp.
  bind_inv H as [lm m] Hm. bind_inv H as lr Hr. injection H as <-.
  apply genMatch0_match_code, match_code_lines in Hm.
  unfold genResult in Hr. bind_inv Hr as [[lr' a'] r'] Hr'. injection Hr as ->.
  apply (genResult0_lines _ _ _ _ _ _ _ (goto_end rulenum)) in Hr'.
  apply Forall_app. split; [done|]. apply Forall_app. split; [|done].
  destruct (String.eqb (rule_cond p) ""); [constructor|].
  apply Forall_singleton. split; cbn; auto.
Qed.

(** The text of a rule is its comments, an opening brace, its statements,
    [return true], a closing brace and its label. *)
Lemma gen_rule_code rulenum rule ls :
  gen_rule rulenum rule = Ok ls ↔
  ∃ p code, split_rule rule = Ok p ∧ rule_code rulenum rule = Ok code ∧
    ls = [MatchComment (rule_match p); CondComment (rule_cond p);
          ResultComment (rule_result p); BlockOpen]
         ++ code ++ [ReturnTrue; BlockClose; Label rulenum].
Proof.
  unfold gen_rule, rule_code. split.
  - intros H. bind_inv H as p Hp. bind_inv H as [lm m] Hm.
    bind_inv H as lr Hr. injection H as <-. exists p. eexists.
    split; [done|]. rewrite Hp. cbn [mbind result_bind].
    rewrite Hm. cbn [mbind result_bind]. rewrite Hr. cbn [mbind result_bind].
    split; [done|]. by rewrite <- !app_assoc.
  - intros (p & code & Hp & H & ->). rewrite Hp in *. cbn [mbind result_bind] in *.
    bind_inv H as [lm m] Hm. bind_inv H as lr Hr. injection H as <-.
    rewrite Hm. cbn [mbind result_bind]. rewrite Hr. cbn [mbind result_bind].
    by rewrite <- !app_assoc.
Qed.

Lemma code_line_inside fail l : code_line fail l → inside l.
Proof. intros [Hs _]. by destruct l. Qed.

Lemma gen_rule_inside rulenum rule ls :
  gen_rule rulenum rule = Ok ls → Forall inside ls.
Proof.
  intros (p & code & _ & Hcode%rule_code_lines & ->)%gen_rule_code.
  repeat (constructor; [done|]). apply Forall_app. split.
  - eapply Forall_impl; [done|]. apply code_line_inside.
  - by repeat constructor.
Qed.

Lemma gen_rules_spec rules rulenum ls rulenum' :
  gen_rules rules rulenum = Ok (ls, rulenum') →
  rulenum' = rulenum + length rules ∧ Forall inside ls.
Proof.
  revert rulenum ls rulenum'; induction rules as [|rule rules IH];
    intros rulenum ls rulenum'; cbn [gen_rules].
  { intros [= <- <-]. split; [cbn; lia|constructor]. }
  intros H. bind_inv H as l1 H1. bind_inv H as [l2 n2] H2.
  injection H as <- <-. apply IH in H2 as [-> Hin].
  split; [cbn; lia|]. apply Forall_app. split; [|done].
  by eapply gen_rule_inside.
Qed.

Section exec_facts.
Context {St : Type} (sem : line → St → step St) (tag : St → string).

Lemma exec_stmt l prog σ :
  is_stmt l = true →
  exec sem tag Running (l :: prog) σ
  = match sem l σ with
    | Pass σ' => exec sem tag Running prog σ'
    | Fail => match fail_of l with
              | Some fail => exec sem tag (Jumping fail) prog σ
              | None => Unknown
              end
    | Crash => Faults
    | Opaque => Unknown
    end.
Proof. by destruct l. Qed.

(** A [goto] passes over the statements. *)
Lemma exec_jump_code fail fail' code prog σ :
  Forall (code_line fail') code →
  exec sem tag (Jumping fail) (code ++ prog) σ
  = exec sem tag (Jumping fail) prog σ.
Proof.
  induction 1 as [|l code [Hl _] _ IH]; [done|].
  cbn [app exec]. by destruct l.
Qed.

(** The block of a rule: its statements run in order; when they all pass
    the function returns true, and when a check fails control is at the text
    after the label of the rule. *)
Lemma exec_rule_code rulenum code prog σ :
  Forall (code_line (goto_end rulenum)) code →
  exec sem tag Running (code ++ [ReturnTrue; BlockClose; Label rulenum] ++ prog) σ
  = match run_code sem code σ with
    | Completed σ' => Returns true σ'
    | FellThrough σ' => exec sem tag Running prog σ'
    | Crashed => Faults
    | Stuck => Unknown
    end.
Proof.
  intros Hcode; revert σ; induction Hcode as [|l code [Hl Hf] Hcode IH];
    intros σ; [done|].
  cbn [app]. rewrite exec_stmt by done. cbn [run_code].
  destruct (sem l σ) as [σ'| | |]; [apply IH| |done|done].
  destruct Hf as [->| ->]; [done|].
  rewrite (exec_jump_code _ (goto_end rulenum)) by done.
  cbn [app exec]. by rewrite String.eqb_refl.
Qed.

Lemma exec_rule rulenum rule ls prog σ :
  gen_rule rulenum rule = Ok ls →
  exec sem tag Running (ls ++ prog) σ
  = match rule_code rulenum rule with
    | Ok code =>
        match run_code sem code σ with
        | Completed σ' => Returns true σ'
        | FellThrough σ' => exec sem tag Running prog σ'
        | Crashed => Faults
        | Stuck => Unknown
        end
    | _ => Unknown
    end.
Proof.
  intros (p & code & _ & Hcode & ->)%gen_rule_code. rewrite Hcode.
  cbn [app exec]. rewrite <- !app_assoc.
  apply exec_rule_code. by eapply rule_code_lines.
Qed.

(** The rules of a group, followed by text that returns false. *)
Lemma exec_rules rules rulenum ls rulenum' prog σ :
  gen_rules rules rulenum = Ok (ls, rulenum') →
  (∀ σ', exec sem tag Running prog σ' = Returns false σ') →
  exec sem tag Running (ls ++ prog) σ = try_rules sem rules rulenum σ.
Proof.
  intros H Hprog; revert rulenum ls σ H;
    induction rules as [|rule rules IH]; intros rulenum ls σ;
    cbn [gen_rules try_rules].
  { intros [= <- _]. apply Hprog. }
  intros H. bind_inv H as l1 H1. bind_inv H as [l2 n2] H2.
  injection H as <- <-. rewrite <- app_assoc.
  rewrite (exec_rule rulenum rule) by done.
  destruct (rule_code rulenum rule) as [code| | |]; try done.
  destruct (run_code sem code σ) as [σ'|σ'| |]; try done.
  by apply IH.
Qed.

Lemma exec_select_inside ls prog σ :
  Forall inside ls →
  exec sem tag Selecting (ls ++ prog) σ = exec sem tag Selecting prog σ.
Proof. induction 1 as [|l ls Hl _ IH]; [done|]. cbn [app exec]. by destruct l. Qed.

Lemma exec_leave ls prog σ :
  Forall (fun l => l ≠ SwitchClose) ls →
  exec sem tag Leaving (ls ++ prog) σ = exec sem tag Leaving prog σ.
Proof. induction 1 as [|l ls Hl _ IH]; [done|]. cbn [app exec]. by destruct l. Qed.

Lemma gen_ops_no_close oprules ops rulenum ls rulenum' :
  gen_ops oprules ops rulenum = Ok (ls, rulenum') →
  Forall (fun l => l ≠ SwitchClose) ls.
Proof.
  revert rulenum ls rulenum'; induction ops as [|op ops IH];
    intros rulenum ls rulenum'; cbn [gen_ops].
  { intros [= <- _]. constructor. }
  intros H. bind_inv H as [l1 n1] H1. bind_inv H as [l2 n2] H2.
  injection H as <- <-. constructor; [done|]. apply Forall_app. split.
  - apply gen_rules_spec in H1 as [_ Hin].
    eapply Forall_impl; [done|]. by intros [] ?.
  - by eapply IH.
Qed.

(** After a clause has run to its end, the function returns false. *)
Lemma exec_after_clause oprules ops rulenum ls rulenum' σ :
  gen_ops oprules ops rulenum = Ok (ls, rulenum') →
  exec sem tag Running (ls ++ footer) σ = Returns false σ.
Proof.
  intros H. pose proof (gen_ops_no_close _ _ _ _ _ H) as Hno.
  destruct ops as [|op ops]; cbn [gen_ops] in H.
  { by injection H as <- _. }
  bind_inv H as [l1 n1] H1. bind_inv H as [l2 n2] H2. injection H as <- <-.
  cbn [app exec]. inversion Hno as [|?? _ Hno']; subst.
  by rewrite exec_leave.
Qed.

(** The switch: the clause of the opcode of the value is found, whatever
    comes before it, and its rules are tried in order. *)
Lemma exec_switch oprules ops rulenum ls rulenum' σ :
  gen_ops oprules ops rulenum = Ok (ls, rulenum') →
  exec sem tag Selecting (ls ++ footer) σ
  = if bool_decide (tag σ ∈ ops)
    then try_rules sem (default [] (oprules !! tag σ))
                   (first_rulenum oprules ops (tag σ) rulenum) σ
    else Returns false σ.
Proof.
  revert rulenum ls rulenum'; induction ops as [|op ops IH];
    intros rulenum ls rulenum'; cbn [gen_ops first_rulenum].
  { intros [= <- _]. rewrite bool_decide_false; [done|]. apply not_elem_of_nil. }
  intros H. bind_inv H as [l1 n1] H1. bind_inv H as [l2 n2] H2.
  injection H as <- <-. cbn [app exec].
  destruct (String.eqb_spec op (tag σ)) as [->|Hne].
  - rewrite bool_decide_true by left. rewrite <- app_assoc.
    eapply exec_rules; [done|]. intros σ'. by eapply exec_after_clause.
  - rewrite <- app_assoc.
    rewrite exec_select_inside by (by eapply gen_rules_spec).
    apply gen_rules_spec in H1 as [-> _]. erewrite IH by done.
    destruct (decide (tag σ ∈ ops)) as [Hin|Hnin].
    + rewrite !bool_decide_true; [done| |done]. by right.
    + rewrite !bool_decide_false; [done| |done].
      by intros [?|?]%elem_of_cons.
Qed.
End exec_facts.

(** *** The order of the clauses and of the rules *)

Lemma ascii_compare_Lt_trans a b c :
  Ascii.compare a b = Lt → Ascii.compare b c = Lt → Ascii.compare a c = Lt.
Proof.
  unfold Ascii.compare. rewrite !N.compare_lt_iff. apply N.lt_trans.
Qed.

Lemma string_compare_trans s1 s2 s3 :
  String.compare s1 s2 ≠ Gt → String.compare s2 s3 ≠ Gt →
  String.compare s1 s3 ≠ Gt.
Proof.
  revert s2 s3; induction s1 as [|c1 s1 IH]; intros [|c2 s2] [|c3 s3];
    cbn [String.compare]; try done.
  destruct (Ascii.compare c1 c2) eqn:H12; [|clear IH|done].
  - apply Ascii.compare_eq_iff in H12 as ->.
    destruct (Ascii.compare c2 c3); [apply IH|done|done].
  - intros _. destruct (Ascii.compare c2 c3) eqn:H23; [| |done].
    + apply Ascii.compare_eq_iff in H23 as ->. by rewrite H12.
    + by rewrite (ascii_compare_Lt_trans _ _ _ H12 H23).
Qed.

Lemma str_le_compare a b : str_le a b ↔ String.compare a b ≠ Gt.
Proof.
  unfold str_le, String.leb. by destruct (String.compare a b).
Qed.

#[global] Instance str_le_trans : Transitive str_le.
Proof.
  intros a b c. rewrite !str_le_compare. apply string_compare_trans.
Qed.

#[global] Instance str_le_total : Total str_le.
Proof. intros a b. apply String.leb_total. Qed.

Lemma sorted_ops_sorted oprules : StronglySorted str_le (sorted_ops oprules).
Proof. apply StronglySorted_merge_sort; apply _. Qed.

Lemma sorted_ops_perm oprules :
  sorted_ops oprules ≡ₚ (map_to_list oprules).*1.
Proof. apply merge_sort_Permutation. Qed.

Lemma sorted_ops_NoDup oprules : NoDup (sorted_ops oprules).
Proof. rewrite sorted_ops_perm. apply NoDup_fst_map_to_list. Qed.

Lemma elem_of_sorted_ops oprules op :
  op ∈ sorted_ops oprules ↔ is_Some (oprules !! op).
Proof.
  rewrite sorted_ops_perm, list_elem_of_fmap. split.
  - intros [[op' rules] [-> Hin%elem_of_map_to_list]]. by exists rules.
  - intros [rules Hin]. exists (op, rules). split; [done|].
    by apply elem_of_map_to_list.
Qed.

Lemma case_tags_inside ls : Forall inside ls → case_tags ls = [].
Proof.
  induction 1 as [|l ls Hl _ IH]; [done|]. unfold case_tags in *.
  cbn [omap list_omap]. rewrite IH. by destruct l.
Qed.

Lemma gen_ops_case_tags oprules ops rulenum ls rulenum' :
  gen_ops oprules ops rulenum = Ok (ls, rulenum') → case_tags ls = ops.
Proof.
  revert rulenum ls rulenum'; induction ops as [|op ops IH];
    intros rulenum ls rulenum'; cbn [gen_ops].
  { by intros [= <- _]. }
  intros H. bind_inv H as [l1 n1] H1. bind_inv H as [l2 n2] H2.
  injection H as <- <-. apply gen_rules_spec in H1 as [_ Hin].
  apply IH in H2. unfold case_tags in *. cbn [omap list_omap]. f_equal.
  rewrite omap_app. fold (case_tags l1). by rewrite case_tags_inside.
Qed.

Lemma read_lines_order lines oprules0 oprules op :
  read_lines oprules0 lines = Ok oprules →
  default [] (oprules !! op) = default [] (oprules0 !! op) ++ rules_of op lines.
Proof.
  revert oprules0; induction lines as [|line lines IH]; intros oprules0;
    cbn [read_lines].
  { intros [= <-]. by rewrite app_nil_r. }
  intros H. bind_inv H as oprules1 H1. rewrite (IH _ H).
  unfold rules_of. cbn [fmap list_fmap List.filter].
  fold (rules_of op lines). unfold read_line, has_op in *.
  destruct (String.eqb (rule_of_line line) ""); cbn [negb andb].
  { by injection H1 as <-. }
  bind_inv H1 as op' Hop'. injection H1 as <-. rewrite Hop'.
  destruct (String.eqb_spec op' op) as [->|Hne].
  - rewrite lookup_insert_eq. cbn. by rewrite <- (assoc_L (++)).
  - by rewrite lookup_insert_ne.
Qed.

(** *** First match wins *)

Lemma read_lines_nonempty lines oprules0 oprules :
  read_lines oprules0 lines = Ok oprules →
  (∀ op, oprules0 !! op ≠ Some []) → ∀ op, oprules !! op ≠ Some [].
Proof.
  revert oprules0; induction lines as [|line lines IH]; intros oprules0;
    cbn [read_lines].
  { by intros [= <-]. }
  intros H Hne. bind_inv H as oprules1 H1. apply (IH _ H). intros op.
  unfold read_line in H1.
  destruct (String.eqb (rule_of_line line) ""); [by injection H1 as <-|].
  bind_inv H1 as op' Hop'. injection H1 as <-.
  destruct (decide (op' = op)) as [->|Hneq].
  - rewrite lookup_insert_eq. intros [= Heq]. by destruct (default [] _).
  - by rewrite lookup_insert_ne.
Qed.

Lemma read_lines_group lines oprules op :
  read_lines ∅ lines = Ok oprules →
  default [] (oprules !! op) = rules_of op lines ∧
  (is_Some (oprules !! op) ↔ rules_of op lines ≠ []).
Proof.
  intros H. pose proof (read_lines_order _ _ _ op H) as Hord.
  rewrite lookup_empty in Hord. cbn in Hord. split; [done|].
  pose proof (read_lines_nonempty _ _ _ H) as Hne.
  rewrite <- Hord. destruct (oprules !! op) as [rules|] eqn:Hop; cbn.
  - split; [|by eauto]. intros _ ->. apply (Hne (fun op => ltac:(by rewrite lookup_empty)) op Hop).
  - split; [by intros [? [=]]|done].
Qed.

(** C4. The clauses of the generated switch are the opcodes that have rules
    in the file, each once, in lexicographic order; called on a value, the
    generated function tries the rules of the opcode of the value in the
    order they stand in the file, with the statements of each rule run in
    order: the first rule whose checks all pass runs its result and the
    function returns true, with no later rule and no other clause tried; when
    every rule of the clause falls through, or no clause has the opcode, the
    function returns false. *)
Theorem first_match_wins_dispatch {St : Type}
    (sem : line → St → step St) (tag : St → string)
    (lines : list string) (oprules : gmap string (list string))
    (ls : list line) :
  read_lines ∅ lines = Ok oprules →
  gen_switch oprules = Ok ls →
  case_tags ls = sorted_ops oprules ∧
  StronglySorted str_le (case_tags ls) ∧
  NoDup (case_tags ls) ∧
  (∀ op, op ∈ case_tags ls ↔ rules_of op lines ≠ []) ∧
  (∀ op, default [] (oprules !! op) = rules_of op lines) ∧
  ∀ σ, exec sem tag Running ls σ
       = if bool_decide (tag σ ∈ case_tags ls)
         then try_rules sem (rules_of (tag σ) lines)
                (first_rulenum oprules (sorted_ops oprules) (tag σ) 0) σ
         else Returns false σ.
Proof.
  intros Hread H. unfold gen_switch in H.
  bind_inv H as [lg n] Hops. injection H as <-.
  assert (case_tags (Switch :: lg ++ footer) = sorted_ops oprules) as Htags.
  { unfold case_tags. cbn [omap list_omap]. rewrite omap_app.
    fold (case_tags lg). rewrite (gen_ops_case_tags _ _ _ _ _ Hops).
    cbn. by rewrite app_nil_r. }
  fold footer. rewrite Htags.
  split; [done|]. split; [apply sorted_ops_sorted|].
  split; [apply sorted_ops_NoDup|]. split; [|split].
  - intros op. rewrite elem_of_sorted_ops.
    by apply read_lines_group.
  - intros op. by apply read_lines_group.
  - intros σ. cbn [exec]. rewrite (exec_switch _ _ _ _ _ _ _ _ Hops).
    by rewrite (proj1 (read_lines_group _ _ (tag σ) Hread)).
Qed.

Lemma first_match_wins_dispatch_witness :
  ∃ oprules ls,
    read_lines ∅ sample_rules = Ok oprules ∧ gen_switch oprules = Ok ls ∧
    case_tags ls = ["Add"; "Sub"] ∧
    rules_of "Add" sample_rules
      = ["(Add x x) -> (Mul x (Const [2]))"; "(Add x y) -> (Sub y x)"] ∧
    exec (go_sem no_cond no_infer) go_tag Running ls (call_state two_consts 0)
      = try_rules (go_sem no_cond no_infer) (rules_of "Add" sample_rules) 0
          (call_state two_consts 0).
Proof.
  destruct (read_lines ∅ sample_rules) as [oprules| | |] eqn:Hread;
    try (exfalso; vm_compute in Hread; discriminate).
  destruct (gen_switch oprules) as [ls| | |] eqn:Hgen;
    try (exfalso; revert Hgen; vm_compute in Hread; injection Hread as <-;
         vm_compute; discriminate).
  exists oprules, ls.
  destruct (first_match_wins_dispatch (go_sem no_cond no_infer) go_tag
              sample_rules oprules ls Hread Hgen)
    as (Htags & _ & _ & _ & _ & Hexec).
  assert (sorted_ops oprules = ["Add"; "Sub"]) as Hsorted.
  { vm_compute in Hread. injection Hread as <-. vm_compute. reflexivity. }
  split; [done|]. split; [done|]. split; [congruence|].
  split; [vm_compute; reflexivity|].
  rewrite Hexec, Htags, Hsorted.
  assert (go_tag (call_state two_consts 0) = "Add") as -> by (vm_compute; reflexivity).
  rewrite bool_decide_true by (left; reflexivity). reflexivity.
Defined.

(** *** The meaning of [v.Args[i]] *)

Lemma srev_append a b : srev (a +:+ b) = srev b +:+ srev a.
Proof.
  induction a as [|x a IH]; cbn [srev].
  - by rewrite append_nil_l, append_nil_r.
  - rewrite append_cons. cbn [srev]. by rewrite IH, append_assoc.
Qed.

Lemma srev_involutive a : srev (srev a) = a.
Proof.
  induction a as [|x a IH]; [done|]. cbn [srev].
  by rewrite srev_append, IH.
Qed.

Lemma all_digits_append a b :
  all_digits (a +:+ b) = all_digits a && all_digits b.
Proof.
  unfold all_digits. induction a as [|x a IH]; [done|].
  rewrite append_cons. cbn [list_ascii_of_string forallb].
  by rewrite IH, andb_assoc.
Qed.

Lemma all_digits_srev a : all_digits (srev a) = all_digits a.
Proof.
  induction a as [|x a IH]; [done|]. cbn [srev].
  rewrite all_digits_append, IH. unfold all_digits.
  cbn [list_ascii_of_string forallb]. rewrite andb_true_r. apply andb_comm.
Qed.

Lemma all_digits_itoa n : all_digits (itoa n) = true.
Proof.
  unfold itoa. generalize (Nat.to_uint n). intros d.
  induction d; cbn [NilEmpty.string_of_uint]; try done;
    unfold all_digits in *; cbn [list_ascii_of_string forallb]; by rewrite IHd.
Qed.

Lemma span_digits_append d c rest :
  all_digits d = true → is_digit c = false →
  span_digits (d +:+ String c rest) = (d, String c rest).
Proof.
  intros Hd Hc. induction d as [|x d IH].
  - rewrite append_nil_l. cbn [span_digits]. by rewrite Hc.
  - rewrite append_cons. cbn [span_digits]. unfold all_digits in *.
    cbn [list_ascii_of_string forallb] in Hd.
    apply andb_true_iff in Hd as [-> Hd]. by rewrite IH.
Qed.

Lemma span_digits_length s :
  String.length (span_digits s).2 ≤ String.length s.
Proof.
  induction s as [|c s IH]; [done|]. cbn [span_digits].
  destruct (is_digit c); [|done].
  destruct (span_digits s) as [d rest]. cbn in *. lia.
Qed.

Lemma has_prefix_length p s :
  has_prefix p s = true → String.length p ≤ String.length s.
Proof.
  revert s; induction p as [|a p IH]; intros [|b s]; cbn; try done; try lia.
  destruct (Ascii.eqb a b); [|done]. intros ?%IH. lia.
Qed.

Lemma has_prefix_append p s : has_prefix p (p +:+ s) = true.
Proof.
  induction p as [|a p IH]; [done|]. rewrite append_cons. cbn [has_prefix].
  by rewrite Ascii.eqb_refl.
Qed.

(** Enough fuel, whatever the amount, gives the same value. *)
Lemma eval_rev_fuel σ fuel1 fuel2 r :
  String.length r < fuel1 → String.length r < fuel2 →
  eval_rev fuel1 σ r = eval_rev fuel2 σ r.
Proof.
  revert fuel2 r; induction fuel1 as [|fuel1 IH]; intros [|fuel2] r H1 H2;
    try lia.
  cbn [eval_rev].
  destruct (has_prefix "epyT." r) eqn:Ht.
  { apply has_prefix_length in Ht. cbn in Ht.
    rewrite (IH fuel2); [done| |]; rewrite length_sdrop; lia. }
  destruct (has_prefix "xuA." r) eqn:Ha.
  { apply has_prefix_length in Ha. cbn in Ha.
    rewrite (IH fuel2); [done| |]; rewrite length_sdrop; lia. }
  destruct (has_prefix "]" r) eqn:Hb; [|done].
  apply has_prefix_length in Hb. cbn in Hb.
  pose proof (span_digits_length (sdrop 1 r)) as Hspan.
  rewrite length_sdrop in Hspan.
  destruct (span_digits (sdrop 1 r)) as [digits rest]. cbn [snd] in Hspan.
  destruct (has_prefix "[sgrA." rest); [|done].
  destruct (NilEmpty.uint_of_string (srev digits)); [|done].
  rewrite (IH fuel2); [done| |]; rewrite length_sdrop; lia.
Qed.

Lemma eval_arg_ref σ v i :
  eval σ (arg_ref v i) = deref σ (eval σ v) (arg_at i).
Proof.
  unfold eval, arg_ref.
  set (x := eval_rev (S (String.length v)) σ (srev v)).
  rewrite !srev_append.
  change (srev "]") with "]". change (srev ".Args[") with "[sgrA.".
  rewrite !append_assoc. cbn [eval_rev].
  change (has_prefix "epyT." ("]" +:+ ?s)) with false.
  change (has_prefix "xuA." ("]" +:+ ?s)) with false.
  change (has_prefix "]" ("]" +:+ ?s)) with true. cbn iota.
  change (sdrop 1 ("]" +:+ ?s)) with s.
  change ("[sgrA." +:+ srev v) with (String "[" ("sgrA." +:+ srev v)).
  rewrite span_digits_append;
    [|by rewrite all_digits_srev, all_digits_itoa|done].
  change (String "[" ("sgrA." +:+ srev v)) with ("[sgrA." +:+ srev v).
  rewrite has_prefix_append, srev_involutive. unfold itoa.
  rewrite NilEmpty.usu, Unsigned.of_to.
  change (sdrop 6 ("[sgrA." +:+ srev v)) with (srev v).
  subst x. f_equal. apply eval_rev_fuel.
  - rewrite length_srev, !length_append. cbn. lia.
  - rewrite length_srev. lia.
Qed.

(** ** Positional access to the arguments is not guarded *)

(** The first line of the code of a variable or sub-pattern matched against
    the reference [v]: a check between references, a binding, or the check of
    the opcode, each on [v]. *)
Lemma genMatch0_first_line fuel a v fail m ls m' :
  genMatch0 fuel a v fail m false = Ok (ls, m') →
  ∃ l rest, ls = l :: rest ∧
    ((∃ x, l = IfNe v x fail) ∨ (∃ x, l = Bind x v) ∨ (∃ op, l = IfOpNe v op fail)).
Proof.
  destruct fuel as [|fuel]; [done|]. cbn [genMatch0]. intros H.
  bind_inv H as c Hc. destruct (negb (Ascii.eqb c "(")).
  { destruct (m !! a); injection H as <- <-; eauto 8. }
  bind_inv H as body Hbody. bind_inv H as s Hs. bind_inv H as op Hop.
  bind_inv H as args Hargs. bind_inv H as [[l n] m1] Hloop.
  injection H as <- <-. bind_inv Hop as s0 Hs0. injection Hop as <-.
  cbn [app]. eauto 8.
Qed.

(** C2 (counterexample).  The match [(Add x y z)] has three child slots; its
    code is three bindings and nothing else, and the generated function, run
    on an [Add] value with two arguments, does not fall through to
    [return false]: it panics on [v.Args[2]]. *)
Lemma no_bounds_check_counterexample :
  fst <$> genMatch "(Add x y z)" (goto_end 0)
    = Ok [Bind "x" "v.Args[0]"; Bind "y" "v.Args[1]"; Bind "z" "v.Args[2]"] ∧
  (ls ← gen_switch {["Add" := ["(Add x y z) -> (Mul x (Add y z))"]]};
   Ok (exec (go_sem no_cond no_infer) go_tag Running ls (call_state two_consts 0)))
    = Ok Faults.
Proof. split; vm_compute; reflexivity. Qed.

(** C2 (amended).  A literal pin, variable or sub-pattern at child index
    [argnum] of the node [v] compiles to code whose first line reads
    [v.Args[argnum]] at once, with no check of the number of arguments before
    it; run on a value with no more than [argnum] arguments, that line is a
    run-time panic (index out of range), not a jump to [fail]. *)
Theorem positional_access_unchecked
    (cond_holds : string → state → option bool) (infer : Value → val)
    (fuel : nat) (v fail a : string) (argnum : nat) (m : gmap string string)
    (ls : list line) (n : nat) (m' : gmap string string)
    (σ : state) (p : nat) (V : Value) :
  positional a = true →
  genMatch_arg (fun a v' m => genMatch0 fuel a v' fail m false)
               v fail a argnum m = Ok (ls, n, m') →
  eval σ v = Val (Ptr p) →
  heap σ !! p = Some V →
  length (Args V) ≤ argnum →
  ∃ l rest, ls = l :: rest ∧
    ((∃ code, l = IfArgNe v argnum code fail) ∨
     (∃ x, l = IfNe (arg_ref v argnum) x fail) ∨
     (∃ x, l = Bind x (arg_ref v argnum)) ∨
     (∃ op, l = IfOpNe (arg_ref v argnum) op fail)) ∧
    go_sem cond_holds infer l σ = Crash ∧
    run_code (go_sem cond_holds infer) ls σ = Crashed.
Proof.
  intros Hpos Harg Hv Hp Hlen.
  assert (eval σ (arg_ref v argnum) = Fault) as Hfault.
  { rewrite eval_arg_ref, Hv. cbn [deref]. rewrite Hp. unfold arg_at.
    by rewrite lookup_ge_None_2. }
  apply genMatch_arg_kind in Harg as [-> Hkind]. unfold positional in Hpos.
  assert (∃ l rest, ls = l :: rest ∧
    ((∃ code, l = IfArgNe v argnum code fail) ∨
     (∃ x, l = IfNe (arg_ref v argnum) x fail) ∨
     (∃ x, l = Bind x (arg_ref v argnum)) ∨
     (∃ op, l = IfOpNe (arg_ref v argnum) op fail))) as (l & rest & -> & Hl).
  { destruct (kind a); try done.
    - destruct Hkind as [code ->]. eauto 8.
    - apply genMatch0_first_line in Hkind as (l & rest & -> & Hl).
      exists l, rest. split; [done|].
      destruct Hl as [[x ->]|[[x ->]|[op ->]]]; eauto 8. }
  exists l, rest. split; [done|]. split; [done|].
  assert (go_sem cond_holds infer l σ = Crash) as Hcrash.
  { destruct Hl as [[code ->]|[[x ->]|[[x ->]|[op ->]]]]; cbn [go_sem];
      by rewrite Hfault. }
  split; [done|]. cbn [run_code]. by rewrite Hcrash.
Qed.

Lemma positional_access_unchecked_witness :
  let σ := call_state two_consts 0 in
  genMatch_arg (fun a v' m => genMatch0 5 a v' "F" m false) "v" "F" "z" 2 ∅
    = Ok ([Bind "z" "v.Args[2]"], 3, {["z" := "v.Args[2]"]}) ∧
  run_code (go_sem no_cond no_infer) [Bind "z" "v.Args[2]"] σ = Crashed.
Proof.
  intros σ.
  assert (genMatch_arg (fun a v' m => genMatch0 5 a v' "F" m false) "v" "F" "z" 2 ∅
          = Ok ([Bind "z" "v.Args[2]"], 3, {["z" := "v.Args[2]"]})) as H
    by (vm_compute; reflexivity).
  split; [exact H|].
  destruct (positional_access_unchecked no_cond no_infer 5 "v" "F" "z" 2 ∅
              _ _ _ σ 0 (MkValue "Add" (Data "int") Nil [1; 2])
              eq_refl H eq_refl eq_refl (le_n 2))
    as (l & rest & _ & _ & _ & Hrun).
  exact Hrun.
Defined.

(** ** The generated code at work *)

(** [(Add x x)] accepts a value whose arguments are one and the same
    pointer, and rejects two different pointers to values of equal shape. *)
Example repeated_variable_is_pointer_equality :
  match match_outcome "(Add x x)" same_const with
  | Ok (Completed _) => True
  | _ => False
  end ∧
  match match_outcome "(Add x x)" two_consts with
  | Ok (FellThrough _) => True
  | _ => False
  end.
Proof. split; vm_compute; exact I. Qed.

(** [(Sub x y) -> (Add x (Neg y))]: both variables are bound, the value
    becomes an [Add] of [x] and of one new value, the [Neg] of [y]. *)
Example sub_becomes_add_of_neg :
  rewritten ["(Sub x y) -> (Add x (Neg y))"]
            (<[0 := MkValue "Sub" (Data "int") Nil [1; 2]]> two_consts)
  = Ok (Some (true, Some (MkValue "Add" (Data "int") Nil [1; 3]), 4)).
Proof. vm_compute; reflexivity. Qed.

(** The first rule that matches wins: on two different pointers [(Add x x)]
    falls through and the next rule of the clause applies. *)
Example second_rule_applies :
  rewritten sample_rules two_consts
  = Ok (Some (true, Some (MkValue "Sub" (Data "int") Nil [2; 1]), 3)).
Proof. vm_compute; reflexivity. Qed.

(** Without rules the function returns false for every value. *)
Example no_rules_no_rewrite (h : gmap nat Value) (p : nat) :
  (ls ← gen_switch ∅;
   Ok (exec (go_sem no_cond no_infer) go_tag Running ls (call_state h p)))
  = Ok (Returns false (call_state h p)).
Proof. reflexivity. Qed.

(** * Further properties *)

(** ** Reading the rule file *)

Lemma trim_front_suffix p2 p3 s : ∃ l, s = l +:+ trim_front p2 p3 s.
Proof.
  assert (∀ n s, String.length s ≤ n → ∃ l, s = l +:+ trim_front p2 p3 s) as H;
    [|by apply (H (String.length s))].
  clear s. induction n as [|n IH]; intros s Hn.
  { destruct s; [by exists ""|simpl in Hn; lia]. }
  destruct s as [|c1 s1]; [by exists ""|]. cbn [trim_front String.length] in *.
  destruct (space1 c1).
  { destruct (IH s1) as [l Hl]; [lia|]. exists (String c1 l).
    by rewrite append_cons, <- Hl. }
  destruct s1 as [|c2 s2]; [by exists ""|]. cbn [String.length] in *.
  destruct (p2 c1 c2).
  { destruct (IH s2) as [l Hl]; [lia|]. exists (String c1 (String c2 l)).
    by rewrite !append_cons, <- Hl. }
  destruct s2 as [|c3 s3]; [by exists ""|]. cbn [String.length] in *.
  destruct (p3 c1 c2 c3); [|by exists ""].
  destruct (IH s3) as [l Hl]; [lia|].
  exists (String c1 (String c2 (String c3 l))). by rewrite !append_cons, <- Hl.
Qed.

Lemma trim_front_first p2 p3 s c t :
  trim_front p2 p3 s = String c t → space1 c = false.
Proof.
  assert (∀ n s, String.length s ≤ n →
                 trim_front p2 p3 s = String c t → space1 c = false) as H;
    [|by apply (H (String.length s))].
  clear s. induction n as [|n IH]; intros s Hn.
  { destruct s; [done|simpl in Hn; lia]. }
  destruct s as [|c1 s1]; [done|]. cbn [trim_front String.length] in *.
  destruct (space1 c1) eqn:Hc1; [apply IH; lia|].
  destruct s1 as [|c2 s2]; [by intros [= <- _]|]. cbn [String.length] in *.
  destruct (p2 c1 c2); [apply IH; lia|].
  destruct s2 as [|c3 s3]; [by intros [= <- _]|]. cbn [String.length] in *.
  destruct (p3 c1 c2 c3); [apply IH; lia|by intros [= <- _]].
Qed.

Lemma TrimRightSpace_prefix x : ∃ r, x = TrimRightSpace x +:+ r.
Proof.
  unfold TrimRightSpace.
  destruct (trim_front_suffix (fun c2 c1 => space2 c1 c2)
              (fun c3 c2 c1 => space3 c1 c2 c3) (srev x)) as [l Hl].
  exists (srev l). rewrite <- srev_append, <- Hl. by rewrite srev_involutive.
Qed.

(** A trimmed line does not start with white space. *)
Lemma TrimSpace_first s c t : TrimSpace s = String c t → space1 c = false.
Proof.
  unfold TrimSpace. intros H.
  destruct (TrimRightSpace_prefix (TrimLeftSpace s)) as [r Hr].
  rewrite H, append_cons in Hr. by eapply trim_front_first.
Qed.

Lemma split_go_head sep s cur :
  ∃ piece rest, split_go sep s 0 cur = (srev cur +:+ piece) :: rest.
Proof.
  revert cur; induction s as [|c s IH]; intros cur; cbn [split_go].
  { exists "", []. by rewrite append_nil_r. }
  destruct (has_prefix sep (String c s)).
  { eexists "", _. by rewrite append_nil_r. }
  destruct (IH (String c cur)) as (piece & rest & ->).
  exists (String c piece), rest. by rewrite srev_cons_append.
Qed.

Lemma stake_all s : stake (String.length s) s = s.
Proof. induction s as [|c s IH]; [done|]. cbn. by rewrite IH. Qed.

Lemma slice_from_1 c s : slice_from (String c s) 1 = Ok s.
Proof.
  unfold slice_from, slice. cbn [String.length].
  rewrite bool_decide_true by lia. change (Z.to_nat 1) with 1. cbn [sdrop].
  replace (Z.to_nat _) with (String.length s) by lia. by rewrite stake_all.
Qed.

(** The opcode of a line that does not start with a space is in range. *)
Lemma rule_op_Ok c t : Ascii.eqb " " c = false → ∃ op, rule_op (String c t) = Ok op.
Proof.
  intros Hc. unfold rule_op, Split. cbn [split_go has_prefix]. rewrite Hc.
  destruct (split_go_head " " t (String c "")) as (piece & rest & ->).
  cbn [head_token mbind result_bind srev]. rewrite append_nil_l, append_cons.
  rewrite append_nil_l, slice_from_1. by exists piece.
Qed.

Lemma read_line_Ok oprules line : ∃ oprules', read_line oprules line = Ok oprules'.
Proof.
  unfold read_line. destruct (String.eqb_spec (rule_of_line line) "") as [|Hne].
  { by exists oprules. }
  destruct (rule_of_line line) as [|c t] eqn:Hl; [done|].
  apply TrimSpace_first in Hl.
  destruct (rule_op_Ok c t) as [op ->]; [|by eexists].
  destruct (Ascii.eqb_spec " " c) as [<-|]; done.
Qed.

Lemma read_lines_Ok oprules lines : ∃ oprules', read_lines oprules lines = Ok oprules'.
Proof.
  revert oprules; induction lines as [|line lines IH]; intros oprules.
  { by exists oprules. }
  cbn [read_lines]. destruct (read_line_Ok oprules line) as [oprules1 ->].
  apply IH.
Qed.

(** X1. Reading the rule file never fails: the opcode
    [strings.Split(line, " ")[0][1:]] is taken from a trimmed line that is
    not empty, so both indexings are in range.  The map that comes out holds,
    for each opcode, exactly the rules of the file with that opcode, in the
    order of the file, and no entry for an opcode without rule. *)
Theorem read_lines_groups_the_file (lines : list string) :
  ∃ oprules, read_lines ∅ lines = Ok oprules ∧
             ∀ op, oprules !! op = group_of op lines.
Proof.
  destruct (read_lines_Ok ∅ lines) as [oprules H]. exists oprules.
  split; [done|]. intros op. unfold group_of.
  destruct (read_lines_group _ _ op H) as [Hd Hs]. rewrite <- Hd in *.
  destruct (oprules !! op) as [rules|] eqn:Hop; cbn in *; [|done].
  destruct rules; [|done]. by destruct (proj1 Hs).
Qed.

Lemma split_go_space_word op cur tail :
  mem " " op = false →
  split_go " " (op +:+ String " " tail) 0 cur
    = (srev cur +:+ op) :: split_go " " tail 0 "" ∧
  split_go " " op 0 cur = [srev cur +:+ op].
Proof.
  revert cur; induction op as [|c op IH]; intros cur Hop.
  { rewrite append_nil_l, append_nil_r. by cbn. }
  cbn [mem] in Hop. apply orb_false_iff in Hop as [Hc Hop].
  rewrite append_cons. cbn [split_go has_prefix].
  assert (Ascii.eqb " " c = false) as ->.
  { destruct (Ascii.eqb_spec " " c) as [<-|]; done. }
  destruct (IH (String c cur) Hop) as [-> ->].
  by rewrite srev_cons_append.
Qed.

(** X2. The opcode under which a rule is filed is the text between the first
    byte of the line and its first space (or the end of the line), whatever
    the first byte is. *)
Theorem rule_op_first_word (c : ascii) (op tail : string) :
  Ascii.eqb c " " = false →
  mem " " op = false →
  rule_op (String c op) = Ok op ∧
  rule_op (String c (op +:+ String " " tail)) = Ok op.
Proof.
  intros Hc Hop.
  assert (mem " " (String c op) = false) as Hcop.
  { cbn [mem]. by rewrite Hc. }
  unfold rule_op, Split. rewrite <- append_cons.
  destruct (split_go_space_word (String c op) "" tail Hcop) as [-> ->].
  cbn [head_token mbind result_bind srev]. rewrite append_nil_l.
  by rewrite slice_from_1.
Qed.

Lemma rule_op_first_word_witness :
  rule_op "(Add" = Ok "Add" ∧ rule_op "(Add x y) -> (Add y x)" = Ok "Add".
Proof.
  exact (rule_op_first_word "(" "Add" "x y) -> (Add y x)" eq_refl eq_refl).
Defined.

(** ** The tokenizer *)

(** White space is no delimiter: the ASCII white space, and the bytes of the
    other white-space characters, which are all above 127. *)
Lemma delimiter_byte c :
  is_open c || is_close c = true → space1 c = false ∧ nat_of_ascii c < 128.
Proof.
  unfold is_open, is_close. rewrite !orb_true_iff.
  intros [[[[H|H]|H]|H]|[[[H|H]|H]|H]]; apply Ascii.eqb_eq in H as ->;
    (split; [reflexivity|apply Nat.ltb_lt; reflexivity]).
Qed.

Lemma weight_no_delimiter c : is_open c || is_close c = false → weight c = 0%Z.
Proof. unfold weight. intros [-> ->]%orb_false_iff. done. Qed.

Lemma weight_space1 c : space1 c = true → weight c = 0%Z.
Proof.
  intros Hs. apply weight_no_delimiter.
  destruct (is_open c || is_close c) eqn:Hd; [|done].
  apply delimiter_byte in Hd as [? _]. congruence.
Qed.

Lemma weight_high c : 128 ≤ nat_of_ascii c → weight c = 0%Z.
Proof.
  intros Hs. apply weight_no_delimiter.
  destruct (is_open c || is_close c) eqn:Hd; [|done].
  apply delimiter_byte in Hd as [_ ?]. lia.
Qed.

Lemma depth_cons c s : depth (String c s) = (weight c + depth s)%Z.
Proof. done. Qed.

Lemma space2_high c1 c2 :
  space2 c1 c2 = true → 128 ≤ nat_of_ascii c1 ∧ 128 ≤ nat_of_ascii c2.
Proof.
  unfold space2. rewrite andb_true_iff, orb_true_iff, !Nat.eqb_eq. lia.
Qed.

Lemma space3_high c1 c2 c3 :
  space3 c1 c2 c3 = true →
  128 ≤ nat_of_ascii c1 ∧ 128 ≤ nat_of_ascii c2 ∧ 128 ≤ nat_of_ascii c3.
Proof.
  unfold space3.
  rewrite !orb_true_iff, !andb_true_iff, !orb_true_iff, !andb_true_iff,
    !Nat.eqb_eq, !Nat.leb_le. lia.
Qed.

(** Trimming white space from the front leaves the depth as it is. *)
Lemma depth_trim_front p2 p3 s :
  (∀ c1 c2, p2 c1 c2 = true → 128 ≤ nat_of_ascii c1 ∧ 128 ≤ nat_of_ascii c2) →
  (∀ c1 c2 c3, p3 c1 c2 c3 = true →
     128 ≤ nat_of_ascii c1 ∧ 128 ≤ nat_of_ascii c2 ∧ 128 ≤ nat_of_ascii c3) →
  depth (trim_front p2 p3 s) = depth s.
Proof.
  intros H2 H3.
  assert (∀ n s, String.length s ≤ n → depth (trim_front p2 p3 s) = depth s) as H;
    [|by apply (H (String.length s))].
  clear s. induction n as [|n IH]; intros s Hn.
  { destruct s; [done|simpl in Hn; lia]. }
  destruct s as [|c1 s1]; [done|]. cbn [trim_front String.length] in *.
  destruct (space1 c1) eqn:Hc1.
  { rewrite IH by lia. by rewrite depth_cons, weight_space1. }
  destruct s1 as [|c2 s2]; [done|]. cbn [String.length] in *.
  destruct (p2 c1 c2) eqn:Hp2.
  { apply H2 in Hp2 as [? ?]. rewrite IH by lia.
    by rewrite !depth_cons, !weight_high. }
  destruct s2 as [|c3 s3]; [done|]. cbn [String.length] in *.
  destruct (p3 c1 c2 c3) eqn:Hp3; [|done].
  apply H3 in Hp3 as (? & ? & ?). rewrite IH by lia.
  by rewrite !depth_cons, !weight_high.
Qed.

Lemma depth_srev s : depth (srev s) = depth s.
Proof.
  induction s as [|c s IH]; [done|]. cbn [srev].
  rewrite depth_app, IH, !depth_cons. cbn [depth]. lia.
Qed.

Lemma depth_TrimSpace s : depth (TrimSpace s) = depth s.
Proof.
  unfold TrimSpace, TrimRightSpace, TrimLeftSpace.
  rewrite depth_srev, depth_trim_front, depth_srev, depth_trim_front; try done.
  - apply space2_high.
  - apply space3_high.
  - intros c1 c2 H%space2_high. lia.
  - intros c1 c2 c3 H%space3_high. lia.
Qed.

(** X3. When [split] returns, the input is a sequence of consecutive
    segments followed by a rest; the tokens are the segments, each trimmed of
    its surrounding white space, in the order of the input; every segment
    ends at depth zero; and the rest, which gives no token, has separators
    and delimiters only. *)
Theorem split_keeps_segments (s : string) (toks : list string) :
  split s = Ok toks →
  ∃ segs rest,
    s = concat_strings segs +:+ rest ∧
    toks = TrimSpace <$> segs ∧
    Forall (fun seg => depth seg = 0%Z) segs ∧
    quiet rest = true ∧ depth rest = 0%Z.
Proof.
  intros (segs & rest & Hs & Ht & Hq & Hd & Hr)%split_loop_segments.
  by exists segs, rest.
Qed.

Lemma split_keeps_segments_witness :
  split "Add  x (Const [c]) ()" = Ok ["Add"; "x"; "(Const [c])"] ∧
  ∃ segs rest,
    "Add  x (Const [c]) ()" = concat_strings segs +:+ rest ∧
    ["Add"; "x"; "(Const [c])"] = TrimSpace <$> segs ∧ quiet rest = true.
Proof.
  assert (split "Add  x (Const [c]) ()" = Ok ["Add"; "x"; "(Const [c])"]) as H
    by (vm_compute; reflexivity).
  split; [exact H|].
  destruct (split_keeps_segments _ _ H) as (segs & rest & Hs & Ht & _ & Hq & _).
  exact (ex_intro _ segs (ex_intro _ rest (conj Hs (conj Ht Hq)))).
Defined.

(** X4. Every token that [split] returns is balanced: its own depth counter
    is zero, so the delimiters of a token are never shared with a
    neighbour. *)
Theorem split_tokens_balanced (s : string) (toks : list string) :
  split s = Ok toks → Forall (fun t => depth t = 0%Z) toks.
Proof.
  intros (segs & rest & _ & -> & _ & Hd & _)%split_loop_segments.
  cbn [app]. apply Forall_fmap. eapply Forall_impl; [done|].
  intros seg Hseg. cbn. by rewrite depth_TrimSpace.
Qed.

Lemma split_tokens_balanced_witness :
  split "x (Sub [c] {f(a, b)} y) <t>" = Ok ["x"; "(Sub [c] {f(a, b)} y)"; "<t>"] ∧
  Forall (fun t => depth t = 0%Z) ["x"; "(Sub [c] {f(a, b)} y)"; "<t>"].
Proof.
  assert (split "x (Sub [c] {f(a, b)} y) <t>"
          = Ok ["x"; "(Sub [c] {f(a, b)} y)"; "<t>"]) as H
    by (vm_compute; reflexivity).
  exact (conj H (split_tokens_balanced _ _ H)).
Defined.

Lemma scan_quiet rest i d :
  quiet rest = true → scan rest i d false = End (d + depth rest) false.
Proof.
  revert i d; induction rest as [|c rest IH]; intros i d; cbn [quiet scan].
  { intros _. f_equal. cbn. lia. }
  intros [Hc Hq]%andb_true_iff. rewrite depth_cons. unfold weight.
  destruct (is_open c); [rewrite IH by done; f_equal; lia|].
  destruct (is_close c); [rewrite IH by done; f_equal; lia|].
  cbn in Hc. rewrite Hc, andb_false_r, IH by done. f_equal; lia.
Qed.

(** X5. [split] returns no token at all exactly for a balanced input made of
    separators and delimiters only (the empty input among them): nothing in
    such an input sets [nonsp]. *)
Theorem split_no_token_iff_quiet (s : string) :
  split s = Ok [] ↔ quiet s = true ∧ depth s = 0%Z.
Proof.
  split.
  - intros (segs & rest & Hs & Ht & Hq & _ & Hr)%split_loop_segments.
    destruct segs; [|done]. cbn [concat_strings foldr] in Hs.
    rewrite append_nil_l in Hs. by subst s.
  - intros [Hq Hd]. unfold split. cbn [split_loop].
    destruct (String.eqb s ""); [done|].
    rewrite scan_quiet, Z.add_0_l, Hd by done. done.
Qed.

(** ** The values allocated by a result *)

Lemma new_values_app l1 l2 : new_values (l1 ++ l2) = new_values l1 ++ new_values l2.
Proof. apply omap_app. Qed.

Lemma seq_split a b c :
  a ≤ b → b ≤ c → seq a (b - a) ++ seq b (c - b) = seq a (c - a).
Proof.
  intros Hab Hbc. replace (c - a) with ((b - a) + (c - b)) by lia.
  rewrite seq_app. do 2 f_equal. lia.
Qed.

Lemma genResult_args_new_values rec v args nt alloc ls nt' alloc' :
  Forall (fun a => ∀ alloc l alloc' x, rec a alloc = Ok (l, alloc', x) →
            alloc ≤ alloc' ∧
            new_values l = value_name <$> seq alloc (alloc' - alloc)) args →
  genResult_args rec v args nt alloc = Ok (ls, nt', alloc') →
  alloc ≤ alloc' ∧ new_values ls = value_name <$> seq alloc (alloc' - alloc).
Proof.
  intros Hall; revert nt alloc ls nt' alloc';
    induction Hall as [|a args Ha _ IH]; intros nt alloc ls nt' alloc';
    cbn [genResult_args].
  { intros [= <- <- <-]. by rewrite Nat.sub_diag. }
  intros H. bind_inv H as [[l1 nt1] alloc1] Harg.
  bind_inv H as [[l2 nt2] alloc2] Hrest. injection H as <- <- <-.
  apply IH in Hrest as [Hle2 Hn2].
  assert (alloc ≤ alloc1 ∧
          new_values l1 = value_name <$> seq alloc (alloc1 - alloc))
    as [Hle1 Hn1].
  { apply genResult_arg_kind in Harg. destruct (kind a).
    - destruct Harg as (t & -> & _ & ->). by rewrite Nat.sub_diag.
    - destruct Harg as (x & -> & _ & ->). by rewrite Nat.sub_diag.
    - destruct Harg as (code & _ & -> & _ & ->). by rewrite Nat.sub_diag.
    - destruct Harg as (l & x & Hrec & -> & _).
      apply Ha in Hrec as [Hle Hn]. split; [done|].
      rewrite new_values_app, Hn. cbn. by rewrite app_nil_r. }
  split; [lia|].
  rewrite new_values_app, Hn1, Hn2, <- fmap_app. f_equal.
  by apply seq_split.
Qed.

Lemma genResult0_new_values fuel result_ alloc top ls alloc' r :
  genResult0 fuel result_ alloc top = Ok (ls, alloc', r) →
  alloc ≤ alloc' ∧ new_values ls = value_name <$> seq alloc (alloc' - alloc).
Proof.
  revert result_ alloc top ls alloc' r; induction fuel as [|fuel IH];
    intros result_ alloc top ls alloc' r H; [done|].
  destruct result_ as [|c rest]; [done|].
  destruct (Ascii.eqb_spec c "(") as [->|Hc].
  - eapply genResult0_node in H as
      (fuel' & body & op & args & lb & nt' & [= <-] & Hbody & Hs & Hloop);
      [|done].
    destruct top; cbn [genResult_node] in Hloop;
      destruct Hloop as (Hloop & -> & _);
      apply genResult_args_new_values in Hloop as [Hle Hn];
      try (apply Forall_forall; intros a _ alloc0 l alloc0' x; apply IH).
    + split; [done|]. rewrite !new_values_app, Hn.
      assert (∀ x, new_values (if nt' then [SetType x] else []) = []) as ->
        by (by destruct nt').
      by rewrite app_nil_r.
    + split; [lia|]. rewrite !new_values_app, Hn.
      assert (∀ x, new_values (if nt' then [SetType x] else []) = []) as ->
        by (by destruct nt').
      rewrite app_nil_r.
      replace (alloc' - alloc) with (S (alloc' - S alloc)) by lia.
      done.
  - cbn [genResult0 index String.get mbind result_bind] in H.
    apply Ascii.eqb_neq in Hc. rewrite Hc in H. cbn [negb] in H.
    injection H as <- <- <-. by rewrite Nat.sub_diag.
Qed.

(** X6. The values allocated by the code of a result are named after the
    counter [*alloc] without gap or repetition: in the order of the text they
    are [v<alloc>], [v<alloc+1>], ... up to the final counter, so the code of
    a whole result allocates [v0], [v1], ..., each exactly once. *)
Theorem result_allocates_consecutive_names (fuel : nat) (result_ : string)
    (alloc : nat) (top : bool) (ls : list line) (alloc' : nat) (r : string) :
  genResult0 fuel result_ alloc top = Ok (ls, alloc', r) →
  alloc ≤ alloc' ∧
  new_values ls = value_name <$> seq alloc (alloc' - alloc) ∧
  NoDup (new_values ls).
Proof.
  intros [Hle Hn]%genResult0_new_values. split; [done|]. split; [done|].
  rewrite Hn. apply NoDup_fmap_2; [|apply NoDup_seq].
  intros n k. apply value_name_inj.
Qed.

Lemma result_allocates_consecutive_names_witness :
  let code := [SetOp "Add"; ClearAux; ResetArgs;
               NewValue "v0" "Neg"; NewValue "v1" "Neg"; AddArg "v1" "x";
               SetType "v1"; AddArg "v0" "v1"; SetType "v0"; AddArg "v" "v0";
               NewValue "v2" "Const"; SetAuxTo "v2" "1"; SetType "v2";
               AddArg "v" "v2"] in
  genResult0 30 "(Add (Neg (Neg x)) (Const [1]))" 0 true = Ok (code, 3, "v") ∧
  new_values code = ["v0"; "v1"; "v2"].
Proof.
  intros code.
  assert (genResult0 30 "(Add (Neg (Neg x)) (Const [1]))" 0 true
          = Ok (code, 3, "v")) as H by (vm_compute; reflexivity).
  exact (conj H (proj1 (proj2
    (result_allocates_consecutive_names _ _ _ _ _ _ _ H)))).
Defined.

(** ** Labels and jumps *)

Lemma labels_app l1 l2 : labels (l1 ++ l2) = labels l1 ++ labels l2.
Proof. apply omap_app. Qed.

Lemma labels_code fail code : Forall (code_line fail) code → labels code = [].
Proof.
  induction 1 as [|l code [Hl _] _ IH]; [done|]. unfold labels in *.
  cbn [omap list_omap]. rewrite IH. by destruct l.
Qed.

Lemma jumps_app l1 l2 :
  jumps_to_next_label l1 → jumps_to_next_label l2 →
  jumps_to_next_label (l1 ++ l2).
Proof.
  intros H1 H2 i l fail Hi Hf.
  destruct (decide (i < length l1)) as [Hlt|Hge].
  - rewrite lookup_app_l in Hi by done.
    destruct (H1 i l fail Hi Hf) as (k & Hk & ->). exists k. split; [|done].
    rewrite drop_app_le by lia. rewrite labels_app.
    destruct (labels (drop (S i) l1)); [done|]. done.
  - rewrite lookup_app_r in Hi by lia.
    destruct (H2 _ l fail Hi Hf) as (k & Hk & ->). exists k. split; [|done].
    rewrite drop_app_ge by lia.
    by replace (S i - length l1) with (S (i - length l1)) by lia.
Qed.

Lemma jumps_no_fail ls :
  Forall (fun l => fail_of l = None) ls → jumps_to_next_label ls.
Proof.
  intros Hall i l fail Hi Hf.
  eapply Forall_forall in Hall; [|by eapply list_elem_of_lookup_2].
  congruence.
Qed.

Lemma jumps_rule_code rulenum code :
  Forall (code_line (goto_end rulenum)) code →
  jumps_to_next_label (code ++ [ReturnTrue; BlockClose; Label rulenum]).
Proof.
  induction 1 as [|l code [Hl Hf] Hcode IH].
  { apply jumps_no_fail. by repeat constructor. }
  intros [|i] l' fail Hi Hfail.
  - injection Hi as <-. destruct Hf as [Hf|Hf]; [congruence|].
    exists rulenum. split; [|congruence].
    rewrite <- app_comm_cons. cbn [drop]. rewrite drop_0.
    rewrite labels_app, (labels_code _ _ Hcode). done.
  - exact (IH i l' fail Hi Hfail).
Qed.

Lemma gen_rule_labels rulenum rule ls :
  gen_rule rulenum rule = Ok ls →
  labels ls = [rulenum] ∧ jumps_to_next_label ls.
Proof.
  intros (p & code & _ & Hcode%rule_code_lines & ->)%gen_rule_code. split.
  - rewrite !labels_app, (labels_code _ _ Hcode). done.
  - apply jumps_app; [apply jumps_no_fail; by repeat constructor|].
    by apply jumps_rule_code.
Qed.

Lemma gen_rules_labels rules rulenum ls rulenum' :
  gen_rules rules rulenum = Ok (ls, rulenum') →
  labels ls = seq rulenum (length rules) ∧ jumps_to_next_label ls.
Proof.
  revert rulenum ls rulenum'; induction rules as [|rule rules IH];
    intros rulenum ls rulenum'; cbn [gen_rules].
  { intros [= <- _]. split; [done|]. by apply jumps_no_fail. }
  intros H. bind_inv H as l1 H1. bind_inv H as [l2 n2] H2.
  injection H as <- _. apply gen_rule_labels in H1 as [Hl1 Hj1].
  apply IH in H2 as [Hl2 Hj2]. split; [|by apply jumps_app].
  by rewrite labels_app, Hl1, Hl2.
Qed.

Lemma gen_ops_labels oprules ops rulenum ls rulenum' :
  gen_ops oprules ops rulenum = Ok (ls, rulenum') →
  labels ls = seq rulenum (rule_count oprules ops) ∧ jumps_to_next_label ls.
Proof.
  revert rulenum ls rulenum'; induction ops as [|op ops IH];
    intros rulenum ls rulenum'; cbn [gen_ops].
  { intros [= <- _]. split; [done|]. by apply jumps_no_fail. }
  intros H. bind_inv H as [l1 n1] H1. bind_inv H as [l2 n2] H2.
  injection H as <- _.
  pose proof (gen_rules_spec _ _ _ _ H1) as [-> _].
  apply gen_rules_labels in H1 as [Hl1 Hj1]. apply IH in H2 as [Hl2 Hj2].
  split.
  - change (labels (Case op :: l1 ++ l2)) with (labels (l1 ++ l2)).
    rewrite labels_app, Hl1, Hl2. unfold rule_count. cbn [fmap list_fmap sum_list].
    by rewrite seq_app.
  - apply (jumps_app [Case op]); [by apply jumps_no_fail; repeat constructor|].
    by apply jumps_app.
Qed.

(** X7. In the generated function the labels are [end0], [end1], ... in
    the order of the text, one for each rule of the file and none twice; and
    every check, wherever it stands, jumps forward to the first label that
    follows it in the text, which is the label of its own rule. *)
Theorem labels_are_consecutive (oprules : gmap string (list string))
    (ls : list line) :
  gen_switch oprules = Ok ls →
  labels ls = seq 0 (rule_count oprules (sorted_ops oprules)) ∧
  NoDup (labels ls) ∧
  jumps_to_next_label ls.
Proof.
  unfold gen_switch. intros H. bind_inv H as [lg n] Hops. injection H as <-.
  apply gen_ops_labels in Hops as [Hl Hj].
  assert (labels (Switch :: lg ++ [SwitchClose; ReturnFalse; FuncClose])
          = seq 0 (rule_count oprules (sorted_ops oprules))) as Hlabels.
  { change (labels (Switch :: ?l)) with (labels l).
    rewrite labels_app, Hl. cbn. by rewrite app_nil_r. }
  split; [done|]. split; [rewrite Hlabels; apply NoDup_seq|].
  apply (jumps_app [Switch]); [by apply jumps_no_fail; repeat constructor|].
  apply jumps_app; [done|]. apply jumps_no_fail. by repeat constructor.
Qed.

Lemma labels_are_consecutive_witness :
  ∃ ls, gen_switch {["Add" := ["(Add x x) -> x"; "(Add x y) -> y"]]} = Ok ls ∧
        labels ls = [0; 1].
Proof.
  destruct (gen_switch {["Add" := ["(Add x x) -> x"; "(Add x y) -> y"]]})
    as [ls| | |] eqn:H; try (exfalso; vm_compute in H; discriminate).
  exists ls. split; [reflexivity|].
  rewrite (proj1 (labels_are_consecutive _ _ H)). vm_compute. reflexivity.
Defined.

(** ** Op-nodes without opcode *)

Lemma split_quiet s : quiet s = true → depth s = 0%Z → split s = Ok [].
Proof.
  intros Hq Hd. unfold split. cbn [split_loop].
  destruct (String.eqb s ""); [done|].
  rewrite scan_quiet, Z.add_0_l, Hd by done. done.
Qed.

Lemma split_unbalanced s : depth s ≠ 0%Z → ∃ msg, split s = Panic msg.
Proof.
  intros Hd. unfold split.
  destruct (split_loop_total (S (String.length s)) s [])
    as [[_ [rest ->]]|[? _]]; [lia|by eexists|done].
Qed.

(** X8. A parenthesised expression whose body has no opcode (it is empty, or
    made of spaces, tabs and delimiters only), or whose delimiters are not
    balanced, makes both compilers panic: neither [genMatch0] nor
    [genResult0] produces code for it, at the top level or below. *)
Theorem op_node_needs_opcode (fuel : nat) (body v fail : string)
    (m : gmap string string) (alloc : nat) (top : bool) :
  quiet body = true ∨ depth body ≠ 0%Z →
  (∃ msg, genMatch0 (S fuel) ("(" +:+ body +:+ ")") v fail m top = Panic msg) ∧
  (∃ msg, genResult0 (S fuel) ("(" +:+ body +:+ ")") alloc top = Panic msg).
Proof.
  intros Hbody.
  change ("(" +:+ body +:+ ")") with (String "(" (body +:+ String ")" "")).
  cbn [genMatch0 genResult0 index String.get mbind result_bind].
  change (Ascii.eqb "(" "(") with true. cbn [negb].
  rewrite inner_bracketed. cbn [mbind result_bind].
  assert ((∃ msg, split body = Panic msg) ∨ split body = Ok []) as [[msg ->]| ->].
  { destruct (Z.eq_dec (depth body) 0%Z) as [Hd|Hd].
    - destruct Hbody as [Hq|?]; [|done]. right. by apply split_quiet.
    - left. by apply split_unbalanced. }
  - split; by exists msg.
  - cbn [mbind result_bind head_token tail_tokens].
    split; [|by eexists]. destruct top; by eexists.
Qed.

Lemma op_node_needs_opcode_witness :
  (∃ msg, genMatch0 1 "( [] )" "v" "F" ∅ true = Panic msg) ∧
  (∃ msg, genResult0 1 "( [] )" 0 true = Panic msg).
Proof.
  exact (op_node_needs_opcode 0 " [] " "v" "F" ∅ 0 true (or_introl eq_refl)).
Defined.

(** ** The run ends *)









(** ** Checks come before assignments *)

Lemma match_code_reads_only fail m ls m' :
  match_code fail m ls m' → Forall (reads_only fail) ls.
Proof.
  induction 1;
    [constructor| | | | | | | | |by apply Forall_app];
    apply Forall_singleton; repeat split; cbn; auto.
Qed.

Lemma is_Some_target_writes l : is_Some (target l) → writes l.
Proof. intros [x Hx]. split; [by exists x|]. by destruct l. Qed.

Lemma genResult0_writes fuel result_ alloc top ls alloc' r :
  genResult0 fuel result_ alloc top = Ok (ls, alloc', r) → Forall writes ls.
Proof.
  intros H. destruct top.
  2:{ apply genResult0_call in H as (_ & Hfresh & _).
      eapply Forall_impl; [done|]. intros l (k & _ & Ht).
      apply is_Some_target_writes. by rewrite Ht. }
  destruct result_ as [|c rest]; [by destruct fuel|].
  destruct (Ascii.eqb_spec c "(") as [->|Hc].
  - eapply genResult0_node in H as
      (fuel' & body & op & args & lb & nt' & -> & Hbody & Hs & Hloop); [|done].
    cbn [genResult_node] in Hloop. destruct Hloop as (Hloop & -> & ->).
    apply genResult_args_spec in Hloop as (Hle & Hown & _);
      [|apply Forall_forall; intros; apply genResult0_call
       |intros k _ Heq; by apply (value_name_not_v k)].
    repeat (constructor; [by apply is_Some_target_writes|]).
    apply Forall_app. split.
    + eapply Forall_impl; [done|]. intros l [Hl|(k & _ & Ht)].
      * apply is_Some_target_writes.
        by destruct Hl as [[t ->]|[[y ->]|[y ->]]].
      * apply is_Some_target_writes. by rewrite Ht.
    + destruct nt'; [|constructor].
      apply Forall_singleton. by apply is_Some_target_writes.
  - destruct fuel as [|fuel']; [done|].
    cbn [genResult0 index String.get mbind result_bind] in H.
    apply Ascii.eqb_neq in Hc. rewrite Hc in H. cbn [negb] in H.
    injection H as <- <- <-. constructor.
Qed.

Lemma rule_code_parts rulenum rule code :
  rule_code rulenum rule = Ok code →
  ∃ guard body, code = guard ++ body ∧
    Forall (reads_only (goto_end rulenum)) guard ∧ Forall writes body.
Proof.
  unfold rule_code. intros H. bind_inv H as p Hp.
  bind_inv H as [lm m] Hm. bind_inv H as lr Hr. injection H as <-.
  apply genMatch0_match_code, match_code_reads_only in Hm.
  unfold genResult in Hr. bind_inv Hr as [[lr' a'] r'] Hr'. injection Hr as ->.
  apply genResult0_writes in Hr'.
  eexists (lm ++ _), lr. split; [by rewrite <- (assoc_L (++))|].
  split; [|done]. apply Forall_app. split; [done|].
  destruct (String.eqb (rule_cond p) ""); [constructor|].
  apply Forall_singleton. repeat split; cbn; auto.
Qed.

(** X10. The statements of a rule are two blocks: first the checks and
    bindings of the match and the condition, which assign no field of any
    value and whose [fail] block, if they have one, is the [goto] to the
    label of the rule; then the assignments and allocations of the result,
    none of which has a [fail] block.  So no check follows an assignment. *)
Theorem checks_precede_assignments (rulenum : nat) (rule : string)
    (code : list line) :
  rule_code rulenum rule = Ok code →
  ∃ guard body, code = guard ++ body ∧
    Forall (reads_only (goto_end rulenum)) guard ∧ Forall writes body.
Proof. apply rule_code_parts. Qed.

Lemma checks_precede_assignments_witness :
  rule_code 7 "(Add x x) && ok(x) -> (Neg x)"
    = Ok ([Bind "x" "v.Args[0]"; IfNe "v.Args[1]" "v.Args[0]" (goto_end 7);
           IfNotCond "ok(x)" (goto_end 7)]
          ++ [SetOp "Neg"; ClearAux; ResetArgs; AddArg "v" "x"]) ∧
  ∃ guard body,
    [Bind "x" "v.Args[0]"; IfNe "v.Args[1]" "v.Args[0]" (goto_end 7);
     IfNotCond "ok(x)" (goto_end 7)]
    ++ [SetOp "Neg"; ClearAux; ResetArgs; AddArg "v" "x"] = guard ++ body ∧
    Forall (reads_only (goto_end 7)) guard ∧ Forall writes body.
Proof.
  assert (rule_code 7 "(Add x x) && ok(x) -> (Neg x)"
    = Ok ([Bind "x" "v.Args[0]"; IfNe "v.Args[1]" "v.Args[0]" (goto_end 7);
           IfNotCond "ok(x)" (goto_end 7)]
          ++ [SetOp "Neg"; ClearAux; ResetArgs; AddArg "v" "x"])) as H
    by (vm_compute; reflexivity).
  exact (conj H (checks_precede_assignments _ _ _ H)).
Defined.

(** ** A call that returns false changes no value *)

Section heap_unchanged.
Context (cond_holds : string → state → option bool) (infer : Value → val).

Lemma compare_ne_Pass a b σ σ' : compare_ne a b σ = Pass σ' → σ' = σ.
Proof.
  unfold compare_ne. destruct a as [x| |], b as [y| |]; try done.
  destruct (decide (x = y)); [by intros [= <-]|done].
Qed.

Lemma assign_Pass x a σ σ' : assign x a σ = Pass σ' → heap σ' = heap σ.
Proof. unfold assign. destruct a; [by intros [= <-]|done|done]. Qed.

Lemma reads_only_Pass fail l σ σ' :
  reads_only fail l → go_sem cond_holds infer l σ = Pass σ' → heap σ' = heap σ.
Proof.
  intros (Hs & Ht & _). destruct l; try done; cbn [go_sem].
  - by intros ->%compare_ne_Pass.
  - apply assign_Pass.
  - destruct (deref σ (eval σ v) _) as [x| |]; try done.
    destruct (decide (x = Data op)); [by intros [= <-]|done].
  - by intros ->%compare_ne_Pass.
  - apply assign_Pass.
  - by intros ->%compare_ne_Pass.
  - apply assign_Pass.
  - by intros ->%compare_ne_Pass.
  - destruct (cond_holds cond σ) as [[|]|]; [by intros [= <-]|done|done].
Qed.

Lemma run_code_app code1 code2 σ :
  run_code (go_sem cond_holds infer) (code1 ++ code2) σ
  = match run_code (go_sem cond_holds infer) code1 σ with
    | Completed σ' => run_code (go_sem cond_holds infer) code2 σ'
    | other => other
    end.
Proof.
  revert σ; induction code1 as [|l code1 IH]; intros σ; [done|].
  cbn [app run_code]. destruct (go_sem cond_holds infer l σ); try done.
  by destruct (fail_of l).
Qed.

Lemma run_guard_heap fail guard σ :
  Forall (reads_only fail) guard →
  match run_code (go_sem cond_holds infer) guard σ with
  | Completed σ' | FellThrough σ' => heap σ' = heap σ
  | _ => True
  end.
Proof.
  intros Hg; revert σ; induction Hg as [|l guard Hl _ IH]; intros σ; [done|].
  cbn [run_code]. destruct (go_sem cond_holds infer l σ) as [σ1| | |] eqn:Hsem;
    try done.
  - apply (reads_only_Pass _ _ _ _ Hl) in Hsem. specialize (IH σ1).
    destruct (run_code _ guard σ1); try done; congruence.
  - by destruct (fail_of l).
Qed.

Lemma run_body_no_fall body σ σ' :
  Forall writes body →
  run_code (go_sem cond_holds infer) body σ ≠ FellThrough σ'.
Proof.
  intros Hb; revert σ; induction Hb as [|l body [_ Hf] _ IH]; intros σ; [done|].
  cbn [run_code]. destruct (go_sem cond_holds infer l σ); try done.
  by rewrite Hf.
Qed.

Lemma rule_fell_through_heap rulenum rule code σ σ' :
  rule_code rulenum rule = Ok code →
  run_code (go_sem cond_holds infer) code σ = FellThrough σ' →
  heap σ' = heap σ.
Proof.
  intros (guard & body & -> & Hg & Hb)%rule_code_parts.
  rewrite run_code_app. pose proof (run_guard_heap _ _ σ Hg) as Hheap.
  destruct (run_code _ guard σ) as [σ1|σ1| |]; try done.
  - intros Hfall. by apply run_body_no_fall in Hfall.
  - by intros [= <-].
Qed.

Lemma try_rules_false_heap rules rulenum σ σ' :
  try_rules (go_sem cond_holds infer) rules rulenum σ = Returns false σ' →
  heap σ' = heap σ.
Proof.
  revert rulenum σ; induction rules as [|rule rules IH]; intros rulenum σ;
    cbn [try_rules].
  { by intros [= <-]. }
  destruct (rule_code rulenum rule) as [code| | |] eqn:Hcode; try done.
  destruct (run_code _ code σ) as [σ1|σ1| |] eqn:Hrun; try done.
  intros H%IH. rewrite H. by eapply rule_fell_through_heap.
Qed.

(** X11. When the generated function returns false, no value has been
    changed: every rule that was tried fell through at a check of its match
    or at its condition, before any of its assignments. *)
Theorem false_leaves_the_heap (oprules : gmap string (list string))
    (ls : list line) (σ σ' : state) :
  gen_switch oprules = Ok ls →
  exec (go_sem cond_holds infer) go_tag Running ls σ = Returns false σ' →
  heap σ' = heap σ.
Proof.
  unfold gen_switch. intros H. bind_inv H as [lg n] Hops. injection H as <-.
  cbn [exec]. fold footer. rewrite (exec_switch _ _ _ _ _ _ _ _ Hops).
  case_bool_decide; [apply try_rules_false_heap|by intros [= <-]].
Qed.
End heap_unchanged.

Lemma false_leaves_the_heap_witness :
  ∃ ls σ',
    gen_switch {["Add" := ["(Add x x) -> x"]]} = Ok ls ∧
    exec (go_sem no_cond no_infer) go_tag Running ls (call_state two_consts 0)
      = Returns false σ' ∧
    heap σ' = two_consts.
Proof.
  destruct (gen_switch {["Add" := ["(Add x x) -> x"]]}) as [ls| | |] eqn:H;
    try (exfalso; vm_compute in H; discriminate).
  destruct (exec (go_sem no_cond no_infer) go_tag Running ls
              (call_state two_consts 0)) as [[|] σ'| | |] eqn:Hexec;
    try (exfalso; revert Hexec; vm_compute in H; injection H as <-;
         vm_compute; discriminate).
  exists ls, σ'. split; [reflexivity|]. split; [exact Hexec|].
  exact (false_leaves_the_heap no_cond no_infer _ _ _ _ H Hexec).
Defined.
